(** * RLP-0 minimum viable kernel: a shallow embedding and its properties

    The embedding follows the Python sources [rlp_0/semantic.py],
    [rlp_0/gates.py], [rlp_0/signals.py] and [rlp_0/core.py].

    - Python floats are IEEE-754 binary64 numbers: they are modelled by
      Rocq's primitive floats, so that [1 - x], [+], [/ 4] and the
      comparisons round and treat NaN exactly as the interpreter does.
    - Objects that a client can hold live in a store and are named by their
      identity: the [RelationalState] instances and the [list] objects.  The
      [Gate], the [SignalBus] and the [RLP0] object itself are reached only
      through the methods of [RLP0] and are threaded as record values.
    - [datetime.now] reads the next value of a clock oracle.
    - A method is a state transformer that either returns or raises; what it
      mutated before raising stays mutated.
    - A subscriber is foreign code: it may raise and it may change a foreign
      environment [Env], but it neither calls back into the kernel nor
      mutates the signal it is given. *)

From Stdlib Require Import Floats.
From stdpp Require Import gmap strings list.

Set Warnings "-inexact-float".

(** * Python values shared by all modules *)

(** Identity of an object in the store. *)
Abbreviation loc := nat.

(** A [datetime] in UTC, as microseconds since the epoch. *)
Definition datetime := Z.

(** The result of [datetime.isoformat], kept symbolic. *)
Inductive isotext := isoformat (t : datetime).

(** The strings of the program.  The f-strings are kept as their template
    applied to its arguments: rendering a float in decimal is not modelled. *)
Inductive message :=
| Literal (s : string)
  (** f"{primitive} must be between 0.0 and 1.0, got {value}" *)
| RangeMessage (primitive : string) (value : float)
  (** f"rupture_risk={risk:.2f} >= threshold={threshold}" *)
| CloseReason (risk threshold : float)
  (** f"Rupture risk {risk:.2f} exceeded threshold {threshold}" *)
| RuptureContext (risk threshold : float).

(** Exceptions: the [ValueError] of the validation, and whatever else foreign
    code raises (named by its class). *)
Inductive exn :=
| ValueError (msg : message)
| Exception (cls : string).

Inductive outcome (A : Type) :=
| Returned (a : A)
| Raised (e : exn).
Arguments Returned {A} a.
Arguments Raised {A} e.

Definition is_ValueError {A} (o : outcome A) : bool :=
  match o with Raised (ValueError _) => true | _ => false end.

(** * The state-and-exception monad of the methods *)

Definition M (Σ A : Type) : Type := Σ → outcome A * Σ.

Definition ret {Σ A} (a : A) : M Σ A := λ s, (Returned a, s).

Definition raise {Σ A} (e : exn) : M Σ A := λ s, (Raised e, s).

Definition bind {Σ A B} (m : M Σ A) (f : A → M Σ B) : M Σ B :=
  λ s, match m s with
       | (Returned a, s') => f a s'
       | (Raised e, s') => (Raised e, s')
       end.

Declare Scope py_scope.
Delimit Scope py_scope with py.
Notation "'let*' x := c 'in' k" := (bind c (λ x, k))
  (at level 10, x pattern, c at level 100, k at level 200, only parsing) : py_scope.
Notation "c ;;; k" := (bind c (λ _, k))
  (at level 100, k at level 200, right associativity, only parsing) : py_scope.
Open Scope py_scope.

Definition modify {Σ} (f : Σ → Σ) : M Σ unit := λ s, (Returned tt, f s).

(** [for x in xs: body x] *)
Fixpoint for_each {Σ A} (xs : list A) (body : A → M Σ unit) : M Σ unit :=
  match xs with
  | [] => ret tt
  | x :: xs' => body x ;;; for_each xs' body
  end.

(** A method of an object that is threaded by value: the receiver is the
    first component of the state, the store the second. *)
Definition self {S W} : M (S * W) S := λ s, (Returned s.1, s).
Definition set_self {S W} (f : S → S) : M (S * W) unit :=
  λ s, (Returned tt, (f s.1, s.2)).

(** A computation on the store alone, run from inside a method. *)
Definition world {S W A} (m : M W A) : M (S * W) A :=
  λ s, let '(r, w') := m s.2 in (r, (s.1, w')).

(** [self.attr.method(...)]: a method of the object held in an attribute. *)
Definition on {S S' W A} (attr : S → S') (set : S' → S → S)
    (m : M (S' * W) A) : M (S * W) A :=
  λ s, let '(r, (o', w')) := m (attr s.1, s.2) in (r, (set o' s.1, w')).

(** * The dataclasses *)

(** [semantic.py]: the fields of [RelationalState]. *)
Module semantic.
Record RelationalState := {
  trust : float;
  intent : float;
  narrative : float;
  commitments : float;
  rupture_risk : float;
  last_updated : datetime;
  is_gated : bool
}.
End semantic.
Export semantic.

(** [signals.py]: [SignalType] and [Signal]. *)
Inductive SignalType := RUPTURE_DETECTED.

Module Signal.
Record t := {
  signal_type : SignalType;
  timestamp : datetime;
  rupture_risk : float;
  context : option message
}.
End Signal.

(** [gates.py]: [GateState] and [GateEvent]. *)
Inductive GateState := OPEN | CLOSED.

Module GateEvent.
Record t := {
  action : string;
  timestamp : datetime;
  reason : option message;
  rupture_risk_at_event : float
}.
End GateEvent.

(** The dictionaries that [RLP0.status] builds for the gate history, and the
    one [RelationalState.as_dict] builds. *)
Module HistoryEntry.
Record t := {
  action : string;
  timestamp : isotext;
  reason : option message;
  rupture_risk : float
}.
End HistoryEntry.

Module StateDict.
Record t := {
  trust : float;
  intent : float;
  narrative : float;
  commitments : float;
  rupture_risk : float;
  is_gated : bool;
  last_updated : isotext
}.
End StateDict.

(** What a Python list of this program can hold. *)
Inductive item :=
| ISignal (s : Signal.t)
| IEvent (e : GateEvent.t)
| IEntry (d : HistoryEntry.t).

(** * The store *)

Section Store.
Context {Env : Type}.

Record World := {
  now_at : nat → datetime;         (** successive readings of the clock *)
  ticks : nat;                     (** how many readings were consumed *)
  states : list RelationalState;   (** the [RelationalState] instances *)
  lists : list (list item);        (** the [list] objects *)
  env : Env                        (** what the subscribers act upon *)
}.

Definition set_ticks (n : nat) (w : World) : World :=
  {| now_at := now_at w; ticks := n; states := states w; lists := lists w; env := env w |}.
Definition set_states (s : list RelationalState) (w : World) : World :=
  {| now_at := now_at w; ticks := ticks w; states := s; lists := lists w; env := env w |}.
Definition set_lists (l : list (list item)) (w : World) : World :=
  {| now_at := now_at w; ticks := ticks w; states := states w; lists := l; env := env w |}.
Definition set_env (e : Env) (w : World) : World :=
  {| now_at := now_at w; ticks := ticks w; states := states w; lists := lists w; env := e |}.

(** [datetime.now(timezone.utc)] *)
Definition datetime_now : M World datetime :=
  λ w, (Returned (now_at w (ticks w)), set_ticks (S (ticks w)) w).

(** Creation of a [RelationalState] instance: a fresh identity. *)
Definition alloc_state (st : RelationalState) : M World loc :=
  λ w, (Returned (length (states w)), set_states (states w ++ [st]) w).

(** Attribute access on an instance.  A reference that names no object
    cannot arise in Python; the model raises there to stay total. *)
Definition read_state (l : loc) : M World RelationalState :=
  λ w, match states w !! l with
       | Some st => (Returned st, w)
       | None => (Raised (Exception "ReferenceError"), w)
       end.

(** [obj.attr = v] on an instance, in place. *)
Definition write_state (l : loc) (f : RelationalState → RelationalState) : M World unit :=
  modify (λ w, set_states (alter f l (states w)) w).

(** [list()], a list display or a comprehension: a fresh list object. *)
Definition alloc_list (xs : list item) : M World loc :=
  λ w, (Returned (length (lists w)), set_lists (lists w ++ [xs]) w).

Definition read_list (l : loc) : M World (list item) :=
  λ w, match lists w !! l with
       | Some xs => (Returned xs, w)
       | None => (Raised (Exception "ReferenceError"), w)
       end.

(** Any in-place mutation of a list object: [append], [pop], [clear],
    item assignment, [del], [sort], ... *)
Definition mutate_list (l : loc) (f : list item → list item) : M World unit :=
  modify (λ w, set_lists (alter f l (lists w)) w).

(** [l.append(x)] *)
Definition list_append (l : loc) (x : item) : M World unit :=
  mutate_list l (λ xs, xs ++ [x]).

(** [l.copy()] *)
Definition list_copy (l : loc) : M World loc :=
  let* xs := read_list l in alloc_list xs.

End Store.
Arguments World : clear implicits.

(** * [semantic.py]: the methods of [RelationalState] *)

Module RelationalState.
Section Methods.
Context {Env : Type}.
#[local] Abbreviation World := (World Env).

(** The defaults of the dataclass fields. *)
Definition default_trust : float := 1%float.
Definition default_intent : float := 1%float.
Definition default_narrative : float := 1%float.
Definition default_commitments : float := 1%float.
Definition default_rupture_risk : float := 0%float.
Definition default_is_gated : bool := false.

(** [0.0 <= value <= 1.0] *)
Definition in_range (value : float) : bool :=
  (0 <=? value)%float && (value <=? 1)%float.

(** [getattr(self, primitive)] for the names the validation loops over. *)
Definition getattr (self : RelationalState) (primitive : string) : option float :=
  if String.eqb primitive "trust" then Some (trust self)
  else if String.eqb primitive "intent" then Some (intent self)
  else if String.eqb primitive "narrative" then Some (narrative self)
  else if String.eqb primitive "commitments" then Some (commitments self)
  else None.

Definition primitives : list string :=
  ["trust"; "intent"; "narrative"; "commitments"].

(** [__post_init__]: the first primitive out of range raises. *)
Fixpoint validate (self : RelationalState) (names : list string) : outcome unit :=
  match names with
  | [] => Returned tt
  | primitive :: names' =>
      match getattr self primitive with
      | None => Raised (Exception "AttributeError")
      | Some value =>
          if negb (in_range value)
          then Raised (ValueError (RangeMessage primitive value))
          else validate self names'
      end
  end.

Definition __post_init__ (self : RelationalState) : outcome unit :=
  validate self primitives.

(** [RelationalState(...)]: the generated [__init__] fills the fields (an
    absent argument takes its default, [last_updated] its default factory,
    which reads the clock), then runs [__post_init__].  When that raises no
    reference to the instance survives, so the instance enters the store only
    when it returns. *)
Definition new (trust intent narrative commitments rupture_risk : option float)
    (last_updated : option datetime) (is_gated : option bool) : M World loc :=
  let* stamp := match last_updated with
                | Some t => ret t
                | None => datetime_now
                end in
  let self := {| semantic.trust := default default_trust trust;
                 semantic.intent := default default_intent intent;
                 semantic.narrative := default default_narrative narrative;
                 semantic.commitments := default default_commitments commitments;
                 semantic.rupture_risk := default default_rupture_risk rupture_risk;
                 semantic.last_updated := stamp;
                 semantic.is_gated := default default_is_gated is_gated |} in
  match __post_init__ self with
  | Raised e => raise e
  | Returned _ => alloc_state self
  end.

(** [self.update( ** kwargs)]; [kwargs.get(key, d)] is [default d (kwargs !! key)]. *)
Definition update (self : loc) (kwargs : gmap string float) : M World loc :=
  let* s := read_state self in
  new (Some (default (trust s) (kwargs !! "trust")))
      (Some (default (intent s) (kwargs !! "intent")))
      (Some (default (narrative s) (kwargs !! "narrative")))
      (Some (default (commitments s) (kwargs !! "commitments")))
      (Some (rupture_risk s))
      None
      (Some (is_gated s)).

(** [self.as_dict()] *)
Definition as_dict (self : loc) : M World StateDict.t :=
  let* s := read_state self in
  ret {| StateDict.trust := trust s;
         StateDict.intent := intent s;
         StateDict.narrative := narrative s;
         StateDict.commitments := commitments s;
         StateDict.rupture_risk := rupture_risk s;
         StateDict.is_gated := is_gated s;
         StateDict.last_updated := isoformat (last_updated s) |}.

(** Attribute assignments used by the kernel. *)
Definition with_rupture_risk (v : float) (s : RelationalState) : RelationalState :=
  {| semantic.trust := trust s; semantic.intent := intent s;
     semantic.narrative := narrative s; semantic.commitments := commitments s;
     semantic.rupture_risk := v; semantic.last_updated := last_updated s;
     semantic.is_gated := is_gated s |}.
Definition with_last_updated (v : datetime) (s : RelationalState) : RelationalState :=
  {| semantic.trust := trust s; semantic.intent := intent s;
     semantic.narrative := narrative s; semantic.commitments := commitments s;
     semantic.rupture_risk := rupture_risk s; semantic.last_updated := v;
     semantic.is_gated := is_gated s |}.
Definition with_is_gated (v : bool) (s : RelationalState) : RelationalState :=
  {| semantic.trust := trust s; semantic.intent := intent s;
     semantic.narrative := narrative s; semantic.commitments := commitments s;
     semantic.rupture_risk := rupture_risk s; semantic.last_updated := last_updated s;
     semantic.is_gated := v |}.

End Methods.
End RelationalState.

(** * [gates.py]: [Gate] *)

Module Gate.
Record t := {
  state : GateState;
  closed_at : option datetime;
  reason : option message;
  history : loc
}.

Definition is_open (g : t) : bool :=
  match state g with OPEN => true | CLOSED => false end.

Definition is_closed (g : t) : bool :=
  match state g with CLOSED => true | OPEN => false end.

Section Methods.
Context {Env : Type}.
#[local] Abbreviation World := (World Env).

(** [Gate()]: the history is a fresh list ([default_factory=list]). *)
Definition new : M World t :=
  let* h := alloc_list [] in
  ret {| state := OPEN; closed_at := None; reason := None; history := h |}.

(** [self.close(reason, rupture_risk)] *)
Definition close (reason : message) (rupture_risk : float) : M (t * World) unit :=
  let* g := self in
  if is_closed g then ret tt
  else
    let* now := world datetime_now in
    set_self (λ g, {| state := CLOSED; closed_at := Some now;
                      reason := Some reason; history := history g |}) ;;;
    world (list_append (history g)
             (IEvent {| GateEvent.action := "closed";
                        GateEvent.timestamp := now;
                        GateEvent.reason := Some reason;
                        GateEvent.rupture_risk_at_event := rupture_risk |})).

(** [self.release(rupture_risk)] *)
Definition release (rupture_risk : float) : M (t * World) unit :=
  let* g := self in
  if is_open g then ret tt
  else
    set_self (λ g, {| state := OPEN; closed_at := closed_at g;
                      reason := Gate.reason g; history := history g |}) ;;;
    let* now := world datetime_now in
    world (list_append (history g)
             (IEvent {| GateEvent.action := "released";
                        GateEvent.timestamp := now;
                        GateEvent.reason := Some (Literal "repair_acknowledged");
                        GateEvent.rupture_risk_at_event := rupture_risk |})) ;;;
    set_self (λ g, {| state := state g; closed_at := None;
                      reason := None; history := history g |}).

(** [self.check()] *)
Definition check : M (t * World) bool :=
  let* g := self in ret (is_open g).

End Methods.
End Gate.

(** * [signals.py]: [SignalBus] *)

Module SignalBus.
Section Methods.
Context {Env : Type}.
#[local] Abbreviation World := (World Env).

(** A subscriber: a callable object.  [cb_id] is its identity, which is what
    [in] and [list.remove] compare; [cb_run] is what calling it does when it
    acts on data of its own, the environment: it may change that, and raise.
    The delivery to subscribers that also hold the bus, and change its list
    of subscribers while they are called, is [LiveBus.deliver] below. *)
Record Callback := {
  cb_id : nat;
  cb_run : Signal.t → Env → outcome unit * Env
}.

Record t := {
  _subscribers : list Callback;
  _history : loc
}.

Definition same (c c' : Callback) : bool := Nat.eqb (cb_id c) (cb_id c').

(** [callback in subscribers] *)
Definition contains (c : Callback) (cs : list Callback) : bool :=
  existsb (same c) cs.

(** [subscribers.remove(callback)]: the first equal element goes. *)
Fixpoint remove (c : Callback) (cs : list Callback) : list Callback :=
  match cs with
  | [] => []
  | c' :: cs' => if same c c' then cs' else c' :: remove c cs'
  end.

(** [SignalBus()] *)
Definition new : M World t :=
  let* h := alloc_list [] in
  ret {| _subscribers := []; _history := h |}.

(** [self.subscribe(callback)] *)
Definition subscribe (callback : Callback) : M (t * World) unit :=
  set_self (λ b, {| _subscribers := _subscribers b ++ [callback];
                    _history := _history b |}).

(** [self.unsubscribe(callback)] *)
Definition unsubscribe (callback : Callback) : M (t * World) unit :=
  let* b := self in
  if contains callback (_subscribers b)
  then set_self (λ b, {| _subscribers := remove callback (_subscribers b);
                         _history := _history b |})
  else ret tt.

(** [subscriber(signal)] *)
Definition call (subscriber : Callback) (signal : Signal.t) : M World unit :=
  λ w, let '(r, e) := cb_run subscriber signal (env w) in (r, set_env e w).

(** [self.emit(signal)] *)
Definition emit (signal : Signal.t) : M (t * World) unit :=
  let* b := self in
  world (list_append (_history b) (ISignal signal)) ;;;
  for_each (_subscribers b) (λ subscriber, world (call subscriber signal)).

(** [self.history] *)
Definition history : M (t * World) loc :=
  let* b := self in world (list_copy (_history b)).

End Methods.
Arguments Callback : clear implicits.
Arguments t : clear implicits.
End SignalBus.

(** * [core.py]: the kernel [RLP0] *)

Module RLP0.
Section Methods.
Context {Env : Type}.
#[local] Abbreviation World := (World Env).
#[local] Abbreviation Callback := (SignalBus.Callback Env).

Definition DEFAULT_RUPTURE_THRESHOLD : float := 0.6%float.

Record t := {
  _state : loc;
  _gate : Gate.t;
  _signal_bus : SignalBus.t Env;
  _rupture_threshold : float
}.

Definition set_state (l : loc) (k : t) : t :=
  {| _state := l; _gate := _gate k; _signal_bus := _signal_bus k;
     _rupture_threshold := _rupture_threshold k |}.
Definition set_gate (g : Gate.t) (k : t) : t :=
  {| _state := _state k; _gate := g; _signal_bus := _signal_bus k;
     _rupture_threshold := _rupture_threshold k |}.
Definition set_signal_bus (b : SignalBus.t Env) (k : t) : t :=
  {| _state := _state k; _gate := _gate k; _signal_bus := b;
     _rupture_threshold := _rupture_threshold k |}.

(** [RLP0(rupture_threshold, state)]; an instance of a dataclass is always
    true, so [state or RelationalState()] takes [state] whenever it is given. *)
Definition new (rupture_threshold : option float) (state : option loc) : M World t :=
  let* st := match state with
             | Some l => ret l
             | None => RelationalState.new None None None None None None None
             end in
  let* g := Gate.new in
  let* b := SignalBus.new in
  ret {| _state := st; _gate := g; _signal_bus := b;
         _rupture_threshold := default DEFAULT_RUPTURE_THRESHOLD rupture_threshold |}.

(** The properties [state], [rupture_risk] and [is_gated]. *)
Definition state : M (t * World) loc :=
  let* k := self in ret (_state k).

Definition rupture_risk : M (t * World) float :=
  let* k := self in
  let* s := world (read_state (_state k)) in
  ret (semantic.rupture_risk s).

Definition is_gated : M (t * World) bool :=
  let* k := self in ret (Gate.is_closed (_gate k)).

Definition subscribe (callback : Callback) : M (t * World) unit :=
  on _signal_bus set_signal_bus (SignalBus.subscribe callback).

Definition unsubscribe (callback : Callback) : M (t * World) unit :=
  on _signal_bus set_signal_bus (SignalBus.unsubscribe callback).

Definition signal_history : M (t * World) loc :=
  on _signal_bus set_signal_bus SignalBus.history.

(** [self._emit_rupture_detected(risk)] *)
Definition _emit_rupture_detected (risk : float) : M (t * World) unit :=
  let* k := self in
  let* now := world datetime_now in
  let signal := {| Signal.signal_type := RUPTURE_DETECTED;
                   Signal.timestamp := now;
                   Signal.rupture_risk := risk;
                   Signal.context := Some (RuptureContext risk (_rupture_threshold k)) |} in
  on _signal_bus set_signal_bus (SignalBus.emit signal).

(** The average of the four deficiencies, in the order the source adds them. *)
Definition risk_of (s : RelationalState) : float :=
  (((1 - trust s) + (1 - intent s) + (1 - narrative s) + (1 - commitments s)) / 4)%float.

(** [self.compute_rupture_risk()]; [risk >= threshold] is [threshold <= risk]. *)
Definition compute_rupture_risk : M (t * World) float :=
  let* k := self in
  let* s := world (read_state (_state k)) in
  let risk := risk_of s in
  world (write_state (_state k) (RelationalState.with_rupture_risk risk)) ;;;
  let* now := world datetime_now in
  world (write_state (_state k) (RelationalState.with_last_updated now)) ;;;
  (if (_rupture_threshold k <=? risk)%float && Gate.is_open (_gate k)
   then
     _emit_rupture_detected risk ;;;
     on _gate set_gate (Gate.close (CloseReason risk (_rupture_threshold k)) risk) ;;;
     world (write_state (_state k) (RelationalState.with_is_gated true))
   else ret tt) ;;;
  ret risk.

(** The dictionary [updates] that [update_state] builds; [None] is an absent
    argument. *)
Definition updates_of (trust intent narrative commitments : option float)
    : gmap string float :=
  let updates : gmap string float := ∅ in
  let updates := match trust with Some v => <["trust" := v]> updates | None => updates end in
  let updates := match intent with Some v => <["intent" := v]> updates | None => updates end in
  let updates := match narrative with Some v => <["narrative" := v]> updates | None => updates end in
  match commitments with Some v => <["commitments" := v]> updates | None => updates end.

(** [self.update_state(trust, intent, narrative, commitments)] *)
Definition update_state (trust intent narrative commitments : option float)
    : M (t * World) unit :=
  let updates := updates_of trust intent narrative commitments in
  (if bool_decide (updates ≠ ∅)
   then
     let* k := self in
     let* l := world (RelationalState.update (_state k) updates) in
     set_self (set_state l)
   else ret tt) ;;;
  compute_rupture_risk ;;;
  ret tt.

(** [self.acknowledge_repair()] *)
Definition acknowledge_repair : M (t * World) bool :=
  let* gated := is_gated in
  if negb gated then ret false
  else
    compute_rupture_risk ;;;
    let* k := self in
    let* s := world (read_state (_state k)) in
    on _gate set_gate (Gate.release (semantic.rupture_risk s)) ;;;
    world (write_state (_state k) (RelationalState.with_is_gated false)) ;;;
    ret true.

(** [self.check_gate()] *)
Definition check_gate : M (t * World) bool :=
  on _gate set_gate Gate.check.

(** The dictionary that [status] returns. *)
Record Status := {
  status_state : StateDict.t;
  status_is_gated : bool;
  status_rupture_threshold : float;
  status_signal_count : nat;
  status_gate_history : loc
}.

(** One element of the comprehension in [status]. *)
Definition entry_of (x : item) : outcome HistoryEntry.t :=
  match x with
  | IEvent e =>
      Returned {| HistoryEntry.action := GateEvent.action e;
                  HistoryEntry.timestamp := isoformat (GateEvent.timestamp e);
                  HistoryEntry.reason := GateEvent.reason e;
                  HistoryEntry.rupture_risk := GateEvent.rupture_risk_at_event e |}
  | _ => Raised (Exception "AttributeError")
  end.

Fixpoint entries_of (xs : list item) : outcome (list item) :=
  match xs with
  | [] => Returned []
  | x :: xs' =>
      match entry_of x with
      | Raised e => Raised e
      | Returned d =>
          match entries_of xs' with
          | Raised e => Raised e
          | Returned ds => Returned (IEntry d :: ds)
          end
      end
  end.

(** [self.status()] *)
Definition status : M (t * World) Status :=
  let* k := self in
  let* d := world (RelationalState.as_dict (_state k)) in
  let* gated := is_gated in
  let* sigs := on _signal_bus set_signal_bus SignalBus.history in
  let* n := world (let* xs := read_list sigs in ret (length xs)) in
  let* events := world (read_list (Gate.history (_gate k))) in
  let* gate_history := match entries_of events with
                       | Raised e => raise e
                       | Returned ds => world (alloc_list ds)
                       end in
  ret {| status_state := d;
         status_is_gated := gated;
         status_rupture_threshold := _rupture_threshold k;
         status_signal_count := n;
         status_gate_history := gate_history |}.

End Methods.
Arguments t : clear implicits.
End RLP0.

(** * [signals.py]: delivery to subscribers that hold the bus *)

(** A subscriber is a Python callable: what it does when it is called is
    not bound to data of its own.  It may hold the bus it is subscribed to,
    and subscribe or unsubscribe callbacks (itself included) while a signal
    is delivered, emit on its own, or assign to the fields of the signal it
    receives, which is the object the history holds.  Here the call of a
    subscriber is any function on the bus and the store, and the signal is
    handed over by reference: the list that holds it and its index there. *)
Module LiveBus.
Section Methods.
Context {Env : Type}.
#[local] Abbreviation State := (SignalBus.t Env * World Env)%type.

(** [subscriber(signal)] *)
Variable call : SignalBus.Callback Env → loc * nat → State → outcome unit * State.

(** [for subscriber in self._subscribers: subscriber(signal)].  The iterator
    of a list keeps a position and reads the list object at every step, so
    the loop follows what the subscribers do to the list; it ends when the
    position is past the end.  A list that grows under the loop keeps it
    running: [fuel] bounds the number of steps, and [None] is a delivery
    that has not ended within them. *)
Fixpoint deliver (fuel position : nat) (signal : loc * nat) (s : State)
    : option (outcome unit * State) :=
  match fuel with
  | 0 => None
  | S fuel' =>
      match SignalBus._subscribers s.1 !! position with
      | None => Some (Returned tt, s)
      | Some subscriber =>
          match call subscriber signal s with
          | (Returned _, s') => deliver fuel' (S position) signal s'
          | (Raised e, s') => Some (Raised e, s')
          end
      end
  end.

(** [self.emit(signal)] *)
Definition emit (fuel : nat) (signal : Signal.t) (s : State)
    : option (outcome unit * State) :=
  let h := SignalBus._history s.1 in
  let place := (h, length (default [] (lists s.2 !! h))) in
  deliver fuel 0 place (s.1, (list_append h (ISignal signal) s.2).2).

End Methods.

(** The call of a subscriber that acts on its environment only: it reads
    the signal and leaves the bus and the lists alone. *)
Definition passive {Env} (subscriber : SignalBus.Callback Env) (signal : loc * nat)
    (s : SignalBus.t Env * World Env) : outcome unit * (SignalBus.t Env * World Env) :=
  match lists s.2 !! signal.1 ≫= (λ xs, xs !! signal.2) with
  | Some (ISignal x) =>
      let '(r, w') := SignalBus.call subscriber x s.2 in (r, (s.1, w'))
  | _ => (Raised (Exception "ReferenceError"), s)
  end.

End LiveBus.

(** * Vocabulary of the statements *)

(** A value strictly outside the closed interval from 0.0 to 1.0. *)
Definition outside (v : float) : Prop :=
  (v <? 0)%float = true ∨ (1 <? v)%float = true.

(** All four primitives pass the range test. *)
Definition valid (s : RelationalState) : bool :=
  RelationalState.in_range (trust s) && RelationalState.in_range (intent s) &&
  RelationalState.in_range (narrative s) && RelationalState.in_range (commitments s).

(** What [s.update( ** kwargs)] builds from [s]: the given primitives
    replaced, risk and flag carried over, a new time stamp. *)
Definition merged (s : RelationalState) (kwargs : gmap string float)
    (now : datetime) : RelationalState :=
  {| semantic.trust := default (trust s) (kwargs !! "trust");
     semantic.intent := default (intent s) (kwargs !! "intent");
     semantic.narrative := default (narrative s) (kwargs !! "narrative");
     semantic.commitments := default (commitments s) (kwargs !! "commitments");
     semantic.rupture_risk := rupture_risk s;
     semantic.last_updated := now;
     semantic.is_gated := is_gated s |}.

(** The instance that the constructor fills in, given its time stamp. *)
Definition candidate (trust intent narrative commitments rupture_risk : option float)
    (stamp : datetime) (is_gated : option bool) : RelationalState :=
  {| semantic.trust := default RelationalState.default_trust trust;
     semantic.intent := default RelationalState.default_intent intent;
     semantic.narrative := default RelationalState.default_narrative narrative;
     semantic.commitments := default RelationalState.default_commitments commitments;
     semantic.rupture_risk := default RelationalState.default_rupture_risk rupture_risk;
     semantic.last_updated := stamp;
     semantic.is_gated := default RelationalState.default_is_gated is_gated |}.

(** The outcome of a call whose value is dropped. *)
Definition discard {A} (o : outcome A) : outcome unit :=
  match o with Returned _ => Returned tt | Raised e => Raised e end.

(** A state after risk [risk] was written into it at time [now]. *)
Definition assessed (s : RelationalState) (risk : float) (now : datetime)
    : RelationalState :=
  {| semantic.trust := trust s;
     semantic.intent := intent s;
     semantic.narrative := narrative s;
     semantic.commitments := commitments s;
     semantic.rupture_risk := risk;
     semantic.last_updated := now;
     semantic.is_gated := is_gated s |}.

(** The signal of a rupture. *)
Definition rupture_signal (now : datetime) (risk threshold : float) : Signal.t :=
  {| Signal.signal_type := RUPTURE_DETECTED;
     Signal.timestamp := now;
     Signal.rupture_risk := risk;
     Signal.context := Some (RuptureContext risk threshold) |}.

(** The event that [Gate.close] records. *)
Definition closed_event (now : datetime) (reason : message) (risk : float) : item :=
  IEvent {| GateEvent.action := "closed";
            GateEvent.timestamp := now;
            GateEvent.reason := Some reason;
            GateEvent.rupture_risk_at_event := risk |}.

(** The event that [Gate.release] records. *)
Definition released_event (now : datetime) (risk : float) : item :=
  IEvent {| GateEvent.action := "released";
            GateEvent.timestamp := now;
            GateEvent.reason := Some (Literal "repair_acknowledged");
            GateEvent.rupture_risk_at_event := risk |}.

(** The dictionary that [status] makes of an event of the gate. *)
Definition as_entry (x : item) : item :=
  match x with
  | IEvent e =>
      IEntry {| HistoryEntry.action := GateEvent.action e;
                HistoryEntry.timestamp := isoformat (GateEvent.timestamp e);
                HistoryEntry.reason := GateEvent.reason e;
                HistoryEntry.rupture_risk := GateEvent.rupture_risk_at_event e |}
  | _ => x
  end.

Definition is_event (x : item) : bool :=
  match x with IEvent _ => true | _ => false end.

Section Vocabulary.
Context {Env : Type}.

(** The time stamp of a new instance, and the store once it was taken. *)
Definition stamped (last_updated : option datetime) (w : World Env)
    : datetime * World Env :=
  match last_updated with
  | Some t => (t, w)
  | None => (now_at w (ticks w), set_ticks (S (ticks w)) w)
  end.

(** What the loop of [SignalBus.emit] does to the environment of the
    subscribers: they run in subscription order; the first one that raises
    ends the loop. *)
Fixpoint notify (subscribers : list (SignalBus.Callback Env)) (signal : Signal.t)
    (e : Env) : outcome unit * Env :=
  match subscribers with
  | [] => (Returned tt, e)
  | c :: cs =>
      match SignalBus.cb_run c signal e with
      | (Returned _, e') => notify cs signal e'
      | (Raised x, e') => (Raised x, e')
      end
  end.

(** The public operations of the kernel. *)
Inductive Op :=
| UpdateState (trust intent narrative commitments : option float)
| ComputeRuptureRisk
| AcknowledgeRepair
| CheckGate
| Subscribe (callback : SignalBus.Callback Env)
| Unsubscribe (callback : SignalBus.Callback Env)
| Status
| SignalHistory
| GetState
| GetRuptureRisk
| GetIsGated.

Definition after {A} (m : M (RLP0.t Env * World Env) A)
    (s : RLP0.t Env * World Env) : RLP0.t Env * World Env :=
  (m s).2.

(** One call by a client, whatever it returns or raises; the client goes on
    with the kernel as the call left it. *)
Definition run_op (o : Op) : RLP0.t Env * World Env → RLP0.t Env * World Env :=
  match o with
  | UpdateState a b c d => after (RLP0.update_state a b c d)
  | ComputeRuptureRisk => after RLP0.compute_rupture_risk
  | AcknowledgeRepair => after RLP0.acknowledge_repair
  | CheckGate => after RLP0.check_gate
  | Subscribe c => after (RLP0.subscribe c)
  | Unsubscribe c => after (RLP0.unsubscribe c)
  | Status => after RLP0.status
  | SignalHistory => after RLP0.signal_history
  | GetState => after RLP0.state
  | GetRuptureRisk => after RLP0.rupture_risk
  | GetIsGated => after RLP0.is_gated
  end.

Definition run_ops (ops : list Op) (s : RLP0.t Env * World Env)
    : RLP0.t Env * World Env :=
  foldl (λ s o, run_op o s) s ops.

(** The operations whose text recomputes the risk. *)
Definition recomputes (o : Op) : bool :=
  match o with
  | UpdateState _ _ _ _ | ComputeRuptureRisk => true
  | _ => false
  end.

(** The flag of the state and the gate say the same. *)
Definition flags_agree (s : RLP0.t Env * World Env) : Prop :=
  ∃ st, states s.2 !! RLP0._state s.1 = Some st ∧
        is_gated st = Gate.is_closed (RLP0._gate s.1).

(** The gate is open and the kernel still holds the instance [l], whose
    fields are still those of [st]. *)
Definition untouched (l : loc) (st : RelationalState)
    (s : RLP0.t Env * World Env) : Prop :=
  Gate.state (RLP0._gate s.1) = OPEN ∧ RLP0._state s.1 = l ∧
  states s.2 !! l = Some st.

End Vocabulary.

(** ** Concrete clients *)

(** The environment of the example subscribers: the signals they collected. *)
Definition Env0 : Type := list Signal.t.

(** A subscriber that appends what it receives, as the tests do. *)
Definition collector : SignalBus.Callback Env0 :=
  {| SignalBus.cb_id := 1;
     SignalBus.cb_run := λ signal e, (Returned tt, e ++ [signal]) |}.

(** A subscriber that raises. *)
Definition faulty : SignalBus.Callback Env0 :=
  {| SignalBus.cb_id := 2;
     SignalBus.cb_run := λ signal e, (Raised (Exception "RuntimeError"), e) |}.

(** A process that has not created anything yet. *)
Definition world0 : World Env0 :=
  {| now_at := Z.of_nat; ticks := 0; states := []; lists := []; env := [] |}.

(** [st = RelationalState(trust=0.2, intent=0.2, narrative=0.2, commitments=0.2)],
    [rlp = RLP0(0.5, st)] and [rlp.subscribe(callback)]. *)
Definition distressed (callback : SignalBus.Callback Env0)
    : M (World Env0) (RLP0.t Env0) :=
  let* st := RelationalState.new (Some 0.2%float) (Some 0.2%float) (Some 0.2%float)
               (Some 0.2%float) None None None in
  let* k := RLP0.new (Some 0.5%float) (Some st) in
  λ w, let '(r, (k', w')) := RLP0.subscribe callback (k, w) in
       (match r with Returned _ => Returned k' | Raised e => Raised e end, w').

(** The kernel and the store that [distressed] leaves behind. *)
Definition distressed_kernel (callback : SignalBus.Callback Env0) : RLP0.t Env0 :=
  {| RLP0._state := 0;
     RLP0._gate := {| Gate.state := OPEN; Gate.closed_at := None;
                      Gate.reason := None; Gate.history := 0 |};
     RLP0._signal_bus := {| SignalBus._subscribers := [callback];
                            SignalBus._history := 1 |};
     RLP0._rupture_threshold := 0.5%float |}.

Definition distressed_state : RelationalState :=
  {| semantic.trust := 0.2%float;
     semantic.intent := 0.2%float;
     semantic.narrative := 0.2%float;
     semantic.commitments := 0.2%float;
     semantic.rupture_risk := 0%float;
     semantic.last_updated := 0%Z;
     semantic.is_gated := false |}.

Definition distressed_world : World Env0 :=
  {| now_at := Z.of_nat; ticks := 1; states := [distressed_state];
     lists := [[]; []]; env := [] |}.

(** The kernel and the store after [rlp.compute_rupture_risk()] on the
    above, when the subscriber is [collector]: the risk is 0.8, the threshold
    0.5, and the clock was read at 1, 2 and 3. *)
Definition gated_state : RelationalState :=
  {| semantic.trust := 0.2%float;
     semantic.intent := 0.2%float;
     semantic.narrative := 0.2%float;
     semantic.commitments := 0.2%float;
     semantic.rupture_risk := 0.8%float;
     semantic.last_updated := 1%Z;
     semantic.is_gated := true |}.

Definition gated_kernel : RLP0.t Env0 :=
  RLP0.set_gate {| Gate.state := CLOSED; Gate.closed_at := Some 3%Z;
                   Gate.reason := Some (CloseReason 0.8%float 0.5%float);
                   Gate.history := 0 |}
    (distressed_kernel collector).

Definition gated_world : World Env0 :=
  {| now_at := Z.of_nat; ticks := 4; states := [gated_state];
     lists := [[closed_event 3%Z (CloseReason 0.8%float 0.5%float) 0.8%float];
               [ISignal (rupture_signal 2%Z 0.8%float 0.5%float)]];
     env := [rupture_signal 2%Z 0.8%float 0.5%float] |}.

(** The store after the same call when the subscriber is [faulty]. *)
Definition aborted_world : World Env0 :=
  {| now_at := Z.of_nat; ticks := 3;
     states := [assessed distressed_state 0.8%float 1%Z];
     lists := [[]; [ISignal (rupture_signal 2%Z 0.8%float 0.5%float)]];
     env := [] |}.

(** ** Vocabulary of the further properties *)

(** The state of a gate that starts in [g] and goes through the events
    [evs]: a "closed" event is possible on an open gate only, a "released"
    event on a closed gate only. *)
Fixpoint replay (g : GateState) (evs : list item) : option GateState :=
  match evs with
  | [] => Some g
  | IEvent e :: evs' =>
      match g with
      | OPEN =>
          if String.eqb (GateEvent.action e) "closed" then replay CLOSED evs' else None
      | CLOSED =>
          if String.eqb (GateEvent.action e) "released" then replay OPEN evs' else None
      end
  | _ :: _ => None
  end.

(** The "closed" events among the items of a list. *)
Definition is_closed_event (x : item) : bool :=
  match x with
  | IEvent e => String.eqb (GateEvent.action e) "closed"
  | _ => false
  end.

(** The signals among the items of a list. *)
Definition is_signal (x : item) : bool :=
  match x with ISignal _ => true | _ => false end.

(** An event whose risk reaches [threshold] when it is a "closed" one. *)
Definition closes_at (threshold : float) (x : item) : bool :=
  match x with
  | IEvent e =>
      negb (String.eqb (GateEvent.action e) "closed") ||
      (threshold <=? GateEvent.rupture_risk_at_event e)%float
  | _ => false
  end.

(** What is followed of a kernel: its gate and the contents of its two
    histories. *)
Record tracked := {
  gate_now : Gate.t;
  signals_now : list item;
  events_now : list item
}.

(** The four things a public operation can do to what is followed. *)
Inductive step (threshold : float) : tracked → tracked → Prop :=
| step_nothing x : step threshold x x
| step_rupture g sigs evs t1 t2 risk :
    Gate.state g = OPEN → (threshold <=? risk)%float = true →
    step threshold
      {| gate_now := g; signals_now := sigs; events_now := evs |}
      {| gate_now := {| Gate.state := CLOSED; Gate.closed_at := Some t2;
                        Gate.reason := Some (CloseReason risk threshold);
                        Gate.history := Gate.history g |};
         signals_now := sigs ++ [ISignal (rupture_signal t1 risk threshold)];
         events_now := evs ++ [closed_event t2 (CloseReason risk threshold) risk] |}
| step_aborted g sigs evs t1 risk :
    Gate.state g = OPEN → (threshold <=? risk)%float = true →
    step threshold
      {| gate_now := g; signals_now := sigs; events_now := evs |}
      {| gate_now := g;
         signals_now := sigs ++ [ISignal (rupture_signal t1 risk threshold)];
         events_now := evs |}
| step_release g sigs evs t risk :
    Gate.state g = CLOSED →
    step threshold
      {| gate_now := g; signals_now := sigs; events_now := evs |}
      {| gate_now := {| Gate.state := OPEN; Gate.closed_at := None;
                        Gate.reason := None; Gate.history := Gate.history g |};
         signals_now := sigs;
         events_now := evs ++ [released_event t risk] |}.

(** The gate and the history agree: the history replays to the state of the
    gate, and [closed_at] and [reason] are set exactly while it is closed. *)
Definition gate_consistent (x : tracked) : Prop :=
  replay OPEN (events_now x) = Some (Gate.state (gate_now x)) ∧
  (Gate.state (gate_now x) = CLOSED ↔ is_Some (Gate.closed_at (gate_now x))) ∧
  (Gate.state (gate_now x) = CLOSED ↔ is_Some (Gate.reason (gate_now x))).

Section FurtherVocabulary.
Context {Env : Type}.

(** The kernel [s.1] is in one piece in the store [s.2]: its state and its
    two history lists exist, the lists are two objects, and they hold [x]. *)
Definition tracks (s : RLP0.t Env * World Env) (x : tracked) : Prop :=
  RLP0._gate s.1 = gate_now x ∧
  lists s.2 !! SignalBus._history (RLP0._signal_bus s.1) = Some (signals_now x) ∧
  lists s.2 !! Gate.history (RLP0._gate s.1) = Some (events_now x) ∧
  SignalBus._history (RLP0._signal_bus s.1) ≠ Gate.history (RLP0._gate s.1) ∧
  is_Some (states s.2 !! RLP0._state s.1).

(** What no operation changes of a kernel: the threshold and the identity of
    its two history lists. *)
Definition same_frame (k k' : RLP0.t Env) : Prop :=
  RLP0._rupture_threshold k' = RLP0._rupture_threshold k ∧
  SignalBus._history (RLP0._signal_bus k') = SignalBus._history (RLP0._signal_bus k) ∧
  Gate.history (RLP0._gate k') = Gate.history (RLP0._gate k).

(** The objects of [w] other than the state [l] and the lists [h1] and [h2]
    are in [w'] as they are in [w]. *)
Definition others_kept (l h1 h2 : loc) (w w' : World Env) : Prop :=
  (∀ i x, i ≠ l → states w !! i = Some x → states w' !! i = Some x) ∧
  (∀ i xs, i ≠ h1 → i ≠ h2 → lists w !! i = Some xs → lists w' !! i = Some xs).

(** The subscribers [cs], called one after the other on the signal at
    [place] from the state [s], each return and each leave the list of
    subscribers as it is; [s'] is the state after the last of them. *)
Fixpoint undisturbed
    (call : SignalBus.Callback Env → loc * nat → SignalBus.t Env * World Env →
            outcome unit * (SignalBus.t Env * World Env))
    (cs : list (SignalBus.Callback Env)) (place : loc * nat)
    (s s' : SignalBus.t Env * World Env) : Prop :=
  match cs with
  | [] => s' = s
  | c :: cs' =>
      ∃ s1, call c place s = (Returned tt, s1) ∧
            SignalBus._subscribers s1.1 = SignalBus._subscribers s.1 ∧
            undisturbed call cs' place s1 s'
  end.

(** The operations of a gate that a client uses on its own. *)
Inductive GateOp :=
| GClose (reason : message) (rupture_risk : float)
| GRelease (rupture_risk : float)
| GCheck.

Definition run_gate_op (o : GateOp) (s : Gate.t * World Env) : Gate.t * World Env :=
  match o with
  | GClose reason risk => (Gate.close reason risk s).2
  | GRelease risk => (Gate.release risk s).2
  | GCheck => (Gate.check s).2
  end.

Definition run_gate_ops (ops : list GateOp) (s : Gate.t * World Env)
    : Gate.t * World Env :=
  foldl (λ s o, run_gate_op o s) s ops.

(** The operations of a signal bus that a client uses on its own. *)
Inductive BusOp :=
| BSubscribe (callback : SignalBus.Callback Env)
| BUnsubscribe (callback : SignalBus.Callback Env)
| BEmit (signal : Signal.t)
| BHistory.

Definition run_bus_op (o : BusOp) (s : SignalBus.t Env * World Env)
    : SignalBus.t Env * World Env :=
  match o with
  | BSubscribe c => (SignalBus.subscribe c s).2
  | BUnsubscribe c => (SignalBus.unsubscribe c s).2
  | BEmit signal => (SignalBus.emit signal s).2
  | BHistory => (SignalBus.history s).2
  end.

Definition run_bus_ops (ops : list BusOp) (s : SignalBus.t Env * World Env)
    : SignalBus.t Env * World Env :=
  foldl (λ s o, run_bus_op o s) s ops.

(** The signals that a sequence of operations emits, in order. *)
Fixpoint emitted (ops : list BusOp) : list item :=
  match ops with
  | [] => []
  | BEmit signal :: ops' => ISignal signal :: emitted ops'
  | _ :: ops' => emitted ops'
  end.

End FurtherVocabulary.

(** The four primitives of [st'] are those of [st]. *)
Definition same_primitives (st st' : RelationalState) : Prop :=
  trust st' = trust st ∧ intent st' = intent st ∧
  narrative st' = narrative st ∧ commitments st' = commitments st.

(** The operations that only read the kernel. *)
Definition observes {Env} (o : @Op Env) : bool :=
  match o with
  | CheckGate | Status | SignalHistory | GetState | GetRuptureRisk | GetIsGated => true
  | _ => false
  end.

(** The store of the gated kernel with a state and a list of another
    client in it. *)
Definition crowded_world : World Env0 :=
  {| now_at := Z.of_nat; ticks := 4;
     states := [gated_state; distressed_state];
     lists := lists gated_world ++ [[ISignal (rupture_signal 2%Z 0.8%float 0.5%float)]];
     env := env gated_world |}.

(** A collecting subscriber that serves once: called through [once], it
    takes itself off the bus before it records the signal. *)
Definition one_shot : SignalBus.Callback Env0 :=
  {| SignalBus.cb_id := 4;
     SignalBus.cb_run := λ signal e, (Returned tt, e ++ [signal]) |}.

Definition once (c : SignalBus.Callback Env0) (signal : loc * nat)
    (s : SignalBus.t Env0 * World Env0) : outcome unit * (SignalBus.t Env0 * World Env0) :=
  if Nat.eqb (SignalBus.cb_id c) 4
  then LiveBus.passive c signal (SignalBus.unsubscribe c s).2
  else LiveBus.passive c signal s.

(** A subscriber that forgets what was collected. *)
Definition resetting : SignalBus.Callback Env0 :=
  {| SignalBus.cb_id := 3;
     SignalBus.cb_run := λ signal e, (Returned tt, []) |}.

(** * Properties *)

Arguments RLP0.risk_of : simpl never.
Arguments SignalBus.emit : simpl never.
Arguments Gate.close : simpl never.
Arguments Gate.release : simpl never.
Arguments RelationalState.__post_init__ : simpl never.
Arguments RelationalState.in_range : simpl never.
Arguments RelationalState.new : simpl never.
Arguments RelationalState.update : simpl never.
Arguments RLP0.compute_rupture_risk : simpl never.
Arguments RLP0.acknowledge_repair : simpl never.
Arguments RLP0.update_state : simpl never.
Arguments RLP0.status : simpl never.
Arguments RLP0.signal_history : simpl never.
Arguments RLP0.new : simpl never.

(** ** Floats: the range test *)

Lemma in_range_zero : RelationalState.in_range 0%float = true.
Proof. vm_compute. reflexivity. Qed.

Lemma in_range_one : RelationalState.in_range 1%float = true.
Proof. vm_compute. reflexivity. Qed.

Lemma nan_not_in_range : RelationalState.in_range nan = false.
Proof. vm_compute. reflexivity. Qed.

Lemma Prim2SF_zero : Prim2SF 0 = S754_zero false.
Proof. vm_compute. reflexivity. Qed.

Lemma Prim2SF_one : Prim2SF 1 = S754_finite false 4503599627370496 (-52).
Proof. vm_compute. reflexivity. Qed.

Lemma SFcompare_finite_Lt_Gt m e m' e' :
  SFcompare (S754_finite false m e) (S754_finite false m' e') = Some Lt →
  SFcompare (S754_finite false m' e') (S754_finite false m e) = Some Gt.
Proof.
  unfold SFcompare. rewrite (Z.compare_antisym e e').
  change (Pos.compare_cont Eq) with Pos.compare.
  rewrite (Pos.compare_antisym m m').
  destruct (Z.compare e e'), (Pos.compare m m'); cbn; congruence.
Qed.

Lemma below_zero_not_in_range v :
  (v <? 0)%float = true → RelationalState.in_range v = false.
Proof.
  unfold RelationalState.in_range. rewrite ltb_spec, !leb_spec, Prim2SF_zero.
  destruct (Prim2SF v) as [ | [] | | [] ? ?]; cbn; congruence.
Qed.

Lemma above_one_not_in_range v :
  (1 <? v)%float = true → RelationalState.in_range v = false.
Proof.
  unfold RelationalState.in_range. rewrite ltb_spec, !leb_spec, Prim2SF_one.
  generalize 4503599627370496%positive (-52)%Z. intros m1 e1.
  unfold SFltb, SFleb. intros H.
  assert (SFcompare (Prim2SF v) (S754_finite false m1 e1) = Some Gt) as ->.
  { destruct (Prim2SF v) as [ | [] | | [] m e]; try (cbn in *; congruence).
    apply SFcompare_finite_Lt_Gt.
    destruct (SFcompare (S754_finite false m1 e1) (S754_finite false m e)) as [[]|];
      congruence. }
  apply andb_false_r.
Qed.

Lemma outside_not_in_range v : outside v → RelationalState.in_range v = false.
Proof. intros [H | H]; eauto using below_zero_not_in_range, above_one_not_in_range. Qed.

(** ** The store: reading after writing *)

Lemma list_alter_Some {A} (f : A → A) (l : list A) (i : nat) (x : A) :
  l !! i = Some x → alter f i l = <[i:=f x]> l.
Proof.
  revert i. induction l as [|y l IH]; intros [|i] H; simplify_eq/=; try done.
  f_equal. by apply IH.
Qed.

Lemma list_alter_alter_Some {A} (f g : A → A) (l : list A) (i : nat) (x : A) :
  l !! i = Some x → alter g i (alter f i l) = <[i:=g (f x)]> l.
Proof. intros H. rewrite list_alter_alter_eq. by rewrite (list_alter_Some _ _ _ _ H). Qed.

Lemma lookup_snoc_length {A} (l : list A) (x : A) : (l ++ [x]) !! length l = Some x.
Proof. by rewrite lookup_app_r, Nat.sub_diag. Qed.

Lemma lookup_Some_ne_length {A} (l : list A) (i : nat) (y : A) :
  l !! i = Some y → i ≠ length l.
Proof. intros H%lookup_lt_Some. lia. Qed.

(** ** Gate: the two transitions and the check *)

Section GateProperties.
Context {Env : Type}.
Implicit Types (g : Gate.t) (w : World Env).

Lemma close_closed g w reason risk :
  Gate.state g = CLOSED → Gate.close reason risk (g, w) = (Returned tt, (g, w)).
Proof. intros H. unfold Gate.close, Gate.is_closed. cbn. by rewrite H. Qed.

Lemma release_open g w risk :
  Gate.state g = OPEN → Gate.release risk (g, w) = (Returned tt, (g, w)).
Proof. intros H. unfold Gate.release, Gate.is_open. cbn. by rewrite H. Qed.

Lemma close_open_alter g w reason risk :
  Gate.state g = OPEN →
  Gate.close reason risk (g, w) =
    (Returned tt,
     ({| Gate.state := CLOSED;
         Gate.closed_at := Some (now_at w (ticks w));
         Gate.reason := Some reason;
         Gate.history := Gate.history g |},
      {| now_at := now_at w;
         ticks := S (ticks w);
         states := states w;
         lists := alter (λ xs, xs ++ [closed_event (now_at w (ticks w)) reason risk])
                    (Gate.history g) (lists w);
         env := env w |})).
Proof. intros H. unfold Gate.close, Gate.is_closed. cbn. by rewrite H. Qed.

Lemma release_closed_alter g w risk :
  Gate.state g = CLOSED →
  Gate.release risk (g, w) =
    (Returned tt,
     ({| Gate.state := OPEN;
         Gate.closed_at := None;
         Gate.reason := None;
         Gate.history := Gate.history g |},
      {| now_at := now_at w;
         ticks := S (ticks w);
         states := states w;
         lists := alter (λ xs, xs ++ [released_event (now_at w (ticks w)) risk])
                    (Gate.history g) (lists w);
         env := env w |})).
Proof. intros H. unfold Gate.release, Gate.is_open. cbn. by rewrite H. Qed.

Lemma close_open g w h reason risk :
  Gate.state g = OPEN → lists w !! Gate.history g = Some h →
  Gate.close reason risk (g, w) =
    (Returned tt,
     ({| Gate.state := CLOSED;
         Gate.closed_at := Some (now_at w (ticks w));
         Gate.reason := Some reason;
         Gate.history := Gate.history g |},
      {| now_at := now_at w;
         ticks := S (ticks w);
         states := states w;
         lists := <[Gate.history g := h ++ [closed_event (now_at w (ticks w)) reason risk]]>
                    (lists w);
         env := env w |})).
Proof.
  intros H Hh. rewrite (close_open_alter _ _ _ _ H).
  by rewrite (list_alter_Some _ _ _ _ Hh).
Qed.

Lemma release_closed g w h risk :
  Gate.state g = CLOSED → lists w !! Gate.history g = Some h →
  Gate.release risk (g, w) =
    (Returned tt,
     ({| Gate.state := OPEN;
         Gate.closed_at := None;
         Gate.reason := None;
         Gate.history := Gate.history g |},
      {| now_at := now_at w;
         ticks := S (ticks w);
         states := states w;
         lists := <[Gate.history g := h ++ [released_event (now_at w (ticks w)) risk]]>
                    (lists w);
         env := env w |})).
Proof.
  intros H Hh. rewrite (release_closed_alter _ _ _ H).
  by rewrite (list_alter_Some _ _ _ _ Hh).
Qed.


(** C7. Every operation of the gate returns.  [check] answers true exactly
    when the gate is OPEN and changes nothing.  [close] on a CLOSED gate and
    [release] on an OPEN gate change nothing and record nothing; otherwise
    [close] moves to CLOSED, sets [closed_at] and [reason] and appends one
    "closed" event carrying the given risk, and [release] moves to OPEN,
    clears [closed_at] and [reason] and appends one "released" event whose
    reason is "repair_acknowledged" and which carries the given risk.  Doing
    either transition twice in a row is the same as doing it once. *)
Theorem gate_operations_total_idempotent g w h reason risk :
  lists w !! Gate.history g = Some h →
  let now := now_at w (ticks w) in
  let recorded (x : item) : World Env :=
    {| now_at := now_at w; ticks := S (ticks w); states := states w;
       lists := <[Gate.history g := h ++ [x]]> (lists w); env := env w |} in
  (∃ b, Gate.check (g, w) = (Returned b, (g, w)) ∧ (b = true ↔ Gate.state g = OPEN)) ∧
  Gate.close reason risk (g, w) =
    (Returned tt,
     match Gate.state g with
     | CLOSED => (g, w)
     | OPEN => ({| Gate.state := CLOSED; Gate.closed_at := Some now;
                   Gate.reason := Some reason; Gate.history := Gate.history g |},
                recorded (closed_event now reason risk))
     end) ∧
  Gate.release risk (g, w) =
    (Returned tt,
     match Gate.state g with
     | OPEN => (g, w)
     | CLOSED => ({| Gate.state := OPEN; Gate.closed_at := None;
                     Gate.reason := None; Gate.history := Gate.history g |},
                  recorded (released_event now risk))
     end) ∧
  (∀ reason' risk',
     (Gate.close reason risk ;;; Gate.close reason' risk') (g, w) =
     Gate.close reason risk (g, w)) ∧
  (∀ risk',
     (Gate.release risk ;;; Gate.release risk') (g, w) = Gate.release risk (g, w)).
Proof.
  intros Hh now recorded. split_and!.
  - exists (Gate.is_open g). split; [done|].
    unfold Gate.is_open. destruct (Gate.state g); split; congruence.
  - destruct (Gate.state g) eqn:Hs.
    + by apply close_open.
    + by apply close_closed.
  - destruct (Gate.state g) eqn:Hs.
    + by apply release_open.
    + by apply release_closed.
  - intros reason' risk'. unfold bind at 1.
    destruct (Gate.state g) eqn:Hs.
    + rewrite (close_open _ _ _ _ _ Hs Hh). by rewrite close_closed.
    + rewrite (close_closed _ _ _ _ Hs). by rewrite close_closed.
  - intros risk'. unfold bind at 1.
    destruct (Gate.state g) eqn:Hs.
    + rewrite (release_open _ _ _ Hs). by rewrite release_open.
    + rewrite (release_closed _ _ _ _ Hs Hh). by rewrite release_open.
Qed.

End GateProperties.

(** ** RelationalState: validation, construction, update *)

Section StateProperties.
Context {Env : Type}.
Implicit Types (w : World Env) (s st : RelationalState).

Lemma post_init_valid s : valid s = true → RelationalState.__post_init__ s = Returned tt.
Proof.
  unfold valid. rewrite !andb_true_iff. intros [[[Ht Hi] Hn] Hc].
  unfold RelationalState.__post_init__. cbn. by rewrite Ht, Hi, Hn, Hc.
Qed.

Lemma post_init_invalid s :
  valid s = false →
  ∃ primitive value,
    RelationalState.__post_init__ s = Raised (ValueError (RangeMessage primitive value)) ∧
    primitive ∈ RelationalState.primitives ∧
    RelationalState.getattr s primitive = Some value ∧
    RelationalState.in_range value = false.
Proof.
  unfold valid, RelationalState.__post_init__, RelationalState.primitives. cbn.
  destruct (RelationalState.in_range (trust s)) eqn:Ht; cbn;
    [|intros _; exists "trust", (trust s); split_and!; [done|set_solver|done|done]].
  destruct (RelationalState.in_range (intent s)) eqn:Hi; cbn;
    [|intros _; exists "intent", (intent s); split_and!; [done|set_solver|done|done]].
  destruct (RelationalState.in_range (narrative s)) eqn:Hn; cbn;
    [|intros _; exists "narrative", (narrative s); split_and!; [done|set_solver|done|done]].
  destruct (RelationalState.in_range (commitments s)) eqn:Hc; cbn;
    [done|intros _; exists "commitments", (commitments s); split_and!; [done|set_solver|done|done]].
Qed.

Lemma new_valid t i n c r lu g w :
  let s := candidate t i n c r (stamped lu w).1 g in
  valid s = true →
  RelationalState.new t i n c r lu g w =
    (Returned (length (states w)), set_states (states w ++ [s]) (stamped lu w).2).
Proof.
  intros s Hv. unfold RelationalState.new, bind.
  destruct lu as [t0|]; subst s; unfold candidate in *; cbn in *;
    by rewrite (post_init_valid _ Hv).
Qed.

Lemma new_invalid t i n c r lu g w :
  let s := candidate t i n c r (stamped lu w).1 g in
  valid s = false →
  ∃ primitive value,
    RelationalState.new t i n c r lu g w =
      (Raised (ValueError (RangeMessage primitive value)), (stamped lu w).2).
Proof.
  intros s Hv. destruct (post_init_invalid _ Hv) as (p & v & Hp & _).
  exists p, v. unfold RelationalState.new, bind.
  destruct lu as [t0|]; subst s; unfold candidate in *; cbn in *; by rewrite Hp.
Qed.

Lemma valid_merged st kwargs t t' : valid (merged st kwargs t) = valid (merged st kwargs t').
Proof. done. Qed.

Lemma update_valid w l st kwargs :
  states w !! l = Some st →
  valid (merged st kwargs 0%Z) = true →
  RelationalState.update l kwargs w =
    (Returned (length (states w)),
     {| now_at := now_at w; ticks := S (ticks w);
        states := states w ++ [merged st kwargs (now_at w (ticks w))];
        lists := lists w; env := env w |}).
Proof.
  intros Hl Hv. unfold RelationalState.update, bind, read_state. rewrite Hl.
  rewrite new_valid; [done|]. done.
Qed.

Lemma update_invalid w l st kwargs :
  states w !! l = Some st →
  valid (merged st kwargs 0%Z) = false →
  ∃ primitive value,
    RelationalState.update l kwargs w =
      (Raised (ValueError (RangeMessage primitive value)),
       {| now_at := now_at w; ticks := S (ticks w); states := states w;
          lists := lists w; env := env w |}).
Proof.
  intros Hl Hv. unfold RelationalState.update, bind, read_state. rewrite Hl.
  edestruct new_invalid as (p & v & ->); [|by exists p, v]. done.
Qed.


Lemma updates_of_trust t i n c : RLP0.updates_of t i n c !! "trust" = t.
Proof. by destruct t, i, n, c. Qed.
Lemma updates_of_intent t i n c : RLP0.updates_of t i n c !! "intent" = i.
Proof. by destruct t, i, n, c. Qed.
Lemma updates_of_narrative t i n c : RLP0.updates_of t i n c !! "narrative" = n.
Proof. by destruct t, i, n, c. Qed.
Lemma updates_of_commitments t i n c : RLP0.updates_of t i n c !! "commitments" = c.
Proof. by destruct t, i, n, c. Qed.

Lemma updates_of_empty t i n c :
  RLP0.updates_of t i n c = ∅ ↔ t = None ∧ i = None ∧ n = None ∧ c = None.
Proof.
  split.
  - intros H. split_and!.
    + by rewrite <-(updates_of_trust t i n c), H.
    + by rewrite <-(updates_of_intent t i n c), H.
    + by rewrite <-(updates_of_narrative t i n c), H.
    + by rewrite <-(updates_of_commitments t i n c), H.
  - by intros (-> & -> & -> & ->).
Qed.

Lemma valid_merged_in_range st kwargs t :
  valid st = true →
  (∀ p v, p ∈ RelationalState.primitives → kwargs !! p = Some v →
          RelationalState.in_range v = true) →
  valid (merged st kwargs t) = true.
Proof.
  unfold valid. rewrite !andb_true_iff. intros [[[Ht Hi] Hn] Hc] Hk. cbn.
  assert (∀ p d, p ∈ RelationalState.primitives → RelationalState.in_range d = true →
                 RelationalState.in_range (default d (kwargs !! p)) = true) as Hd.
  { intros p d Hp Hin. destruct (kwargs !! p) eqn:E; cbn; eauto. }
  unfold RelationalState.primitives in Hd. split_and!; apply Hd; (done || set_solver).
Qed.

Lemma valid_merged_outside st kwargs t p v :
  p ∈ RelationalState.primitives → kwargs !! p = Some v → outside v →
  valid (merged st kwargs t) = false.
Proof.
  intros Hp Hk Ho%outside_not_in_range. unfold valid. cbn.
  unfold RelationalState.primitives in Hp.
  repeat (apply elem_of_cons in Hp as [->|Hp]); [..|by apply elem_of_nil in Hp];
    rewrite Hk; cbn; rewrite Ho; by rewrite ?andb_false_r.
Qed.

Lemma update_preserves_instances w (s1 : loc) st (kwargs : gmap string float) l x :
  states w !! s1 = Some st → states w !! l = Some x →
  states (RelationalState.update s1 kwargs w).2 !! l = Some x.
Proof.
  intros Hs Hl. destruct (valid (merged st kwargs 0%Z)) eqn:Hm.
  - rewrite (update_valid _ _ _ _ Hs Hm). cbn. by apply lookup_app_l_Some.
  - destruct (update_invalid _ _ _ kwargs Hs Hm) as (p & v & ->). done.
Qed.

(** C5. [s2 = s1.update( ** kwargs)] mutates no instance that exists, so
    every field of [s1] is as before, whatever the call does.  When [s1] is a
    valid state and the overrides are signal values, it returns a new
    instance, in which each primitive is the override when one is given and
    the value of [s1] otherwise, and [rupture_risk] and [is_gated] are those
    of [s1]: no risk is computed. *)
Theorem update_returns_new_instance w (s1 : loc) st (kwargs : gmap string float) :
  states w !! s1 = Some st →
  (∀ l x, states w !! l = Some x →
          states (RelationalState.update s1 kwargs w).2 !! l = Some x) ∧
  (valid st = true →
   (∀ p v, p ∈ RelationalState.primitives → kwargs !! p = Some v →
           RelationalState.in_range v = true) →
   ∃ (s2 : loc) w' st2,
     RelationalState.update s1 kwargs w = (Returned s2, w') ∧
     s2 ≠ s1 ∧ states w !! s2 = None ∧
     states w' !! s1 = Some st ∧
     states w' !! s2 = Some st2 ∧
     trust st2 = default (trust st) (kwargs !! "trust") ∧
     intent st2 = default (intent st) (kwargs !! "intent") ∧
     narrative st2 = default (narrative st) (kwargs !! "narrative") ∧
     commitments st2 = default (commitments st) (kwargs !! "commitments") ∧
     rupture_risk st2 = rupture_risk st ∧
     is_gated st2 = is_gated st ∧
     lists w' = lists w ∧ env w' = env w).
Proof.
  intros Hs. split; [intros l x; by apply (update_preserves_instances _ _ st)|].
  intros Hv Hk.
  pose proof (valid_merged_in_range st kwargs 0%Z Hv Hk) as Hm.
  eexists (length (states w)), _, (merged st kwargs (now_at w (ticks w))).
  rewrite (update_valid _ _ _ _ Hs Hm). cbn.
  split_and!; try done.
  - by apply not_eq_sym, (lookup_Some_ne_length _ _ _ Hs).
  - by apply lookup_ge_None.
  - by apply lookup_app_l_Some.
  - apply lookup_snoc_length.
Qed.

End StateProperties.

(** ** The kernel *)

Section KernelProperties.
Context {Env : Type}.
Implicit Types (k : RLP0.t Env) (w : World Env) (b : SignalBus.t Env).
Implicit Types (st : RelationalState).

Lemma for_each_call subs signal b w :
  for_each subs (λ c, world (SignalBus.call c signal)) (b, w) =
  ((notify subs signal (env w)).1, (b, set_env (notify subs signal (env w)).2 w)).
Proof.
  revert w. induction subs as [|c cs IH]; intros w.
  - by destruct w.
  - cbn. unfold bind, world, SignalBus.call. cbn.
    destruct (SignalBus.cb_run c signal (env w)) as [[[]|x] e'] eqn:Hc; cbn.
    + by rewrite IH.
    + done.
Qed.

Lemma emit_spec signal b w :
  SignalBus.emit signal (b, w) =
  ((notify (SignalBus._subscribers b) signal (env w)).1,
   (b, {| now_at := now_at w; ticks := ticks w; states := states w;
          lists := alter (λ xs, xs ++ [ISignal signal]) (SignalBus._history b) (lists w);
          env := (notify (SignalBus._subscribers b) signal (env w)).2 |})).
Proof. unfold SignalBus.emit. cbn. by rewrite for_each_call. Qed.

(** The call when no rupture is declared: below the threshold, or gated. *)
Lemma compute_quiet k w st :
  states w !! RLP0._state k = Some st →
  (RLP0._rupture_threshold k <=? RLP0.risk_of st)%float && Gate.is_open (RLP0._gate k)
    = false →
  RLP0.compute_rupture_risk (k, w) =
    (Returned (RLP0.risk_of st),
     (k, {| now_at := now_at w; ticks := S (ticks w);
            states := <[RLP0._state k :=
                          assessed st (RLP0.risk_of st) (now_at w (ticks w))]> (states w);
            lists := lists w; env := env w |})).
Proof.
  intros Hst Hc. unfold RLP0.compute_rupture_risk, bind, world, read_state. cbn.
  rewrite Hst. cbn. rewrite Hc. cbn.
  unfold ret, set_states, set_ticks. cbn.
  by rewrite (list_alter_alter_Some _ _ _ _ _ Hst).
Qed.

(** The call when a rupture is declared. *)
Lemma compute_rupture k w st :
  states w !! RLP0._state k = Some st →
  (RLP0._rupture_threshold k <=? RLP0.risk_of st)%float = true →
  Gate.state (RLP0._gate k) = OPEN →
  let risk := RLP0.risk_of st in
  let threshold := RLP0._rupture_threshold k in
  let signal := rupture_signal (now_at w (S (ticks w))) risk threshold in
  let heard := notify (SignalBus._subscribers (RLP0._signal_bus k)) signal (env w) in
  let signalled := alter (λ xs, xs ++ [ISignal signal])
                     (SignalBus._history (RLP0._signal_bus k)) (lists w) in
  let s1 := assessed st risk (now_at w (ticks w)) in
  RLP0.compute_rupture_risk (k, w) =
    match heard.1 with
    | Raised e =>
        (Raised e,
         (k, {| now_at := now_at w; ticks := S (S (ticks w));
                states := <[RLP0._state k := s1]> (states w);
                lists := signalled; env := heard.2 |}))
    | Returned _ =>
        (Returned risk,
         (RLP0.set_gate
            {| Gate.state := CLOSED;
               Gate.closed_at := Some (now_at w (S (S (ticks w))));
               Gate.reason := Some (CloseReason risk threshold);
               Gate.history := Gate.history (RLP0._gate k) |} k,
          {| now_at := now_at w; ticks := S (S (S (ticks w)));
             states := <[RLP0._state k := RelationalState.with_is_gated true s1]> (states w);
             lists := alter (λ xs, xs ++ [closed_event (now_at w (S (S (ticks w))))
                                             (CloseReason risk threshold) risk])
                        (Gate.history (RLP0._gate k)) signalled;
             env := heard.2 |}))
    end.
Proof.
  intros Hst Hc Hg risk threshold signal heard signalled s1.
  destruct k as [l g b thr]. cbn in *.
  unfold RLP0.compute_rupture_risk, bind, world, read_state. cbn.
  rewrite Hst. cbn. rewrite Hc. unfold Gate.is_open. rewrite Hg. cbn.
  unfold RLP0._emit_rupture_detected, bind, world, on. cbn.
  rewrite emit_spec. cbn.
  subst heard signalled signal s1. unfold rupture_signal. fold risk.
  destruct (notify _ _ _) as [[[]|e] e']; cbn.
  - rewrite (close_open_alter _ _ _ _ Hg). cbn.
    rewrite list_alter_alter_eq.
    by rewrite (list_alter_alter_Some _ _ _ _ _ Hst).
  - by rewrite (list_alter_alter_Some _ _ _ _ _ Hst).
Qed.

Lemma compute_closed k w st :
  states w !! RLP0._state k = Some st →
  Gate.state (RLP0._gate k) = CLOSED →
  RLP0.compute_rupture_risk (k, w) =
    (Returned (RLP0.risk_of st),
     (k, {| now_at := now_at w; ticks := S (ticks w);
            states := <[RLP0._state k :=
                          assessed st (RLP0.risk_of st) (now_at w (ticks w))]> (states w);
            lists := lists w; env := env w |})).
Proof.
  intros Hst Hg. apply compute_quiet; [done|].
  unfold Gate.is_open. rewrite Hg. apply andb_false_r.
Qed.

(** C2, as the code has it.  [compute_rupture_risk] computes
    ((1 - a) + (1 - b) + (1 - c) + (1 - d)) / 4 from the four signals of the
    state and, on every call and whatever the gate, writes it into
    [rupture_risk] of that state together with a reading of the clock taken
    during the call, leaving the signals as they are.  A call that returns,
    returns that value.  A call that signals no rupture (the risk is below
    the threshold or the gate is closed) returns, writes the time at which
    it was called, and changes nothing else.  A call that signals a rupture
    returns when the subscribers return.  The calls that do not return
    signal a rupture to a bus that has a subscriber: they raise, with the
    value already written.  With all four signals at 0.2 the risk is 0.8. *)
Theorem compute_rupture_risk_is_mean_deficiency k w st :
  states w !! RLP0._state k = Some st →
  let risk := (((1 - trust st) + (1 - intent st) + (1 - narrative st) +
                (1 - commitments st)) / 4)%float in
  ∃ r k' w' st',
    RLP0.compute_rupture_risk (k, w) = (r, (k', w')) ∧
    states w' !! RLP0._state k = Some st' ∧
    rupture_risk st' = risk ∧
    (∃ n, ticks w ≤ n < ticks w' ∧ last_updated st' = now_at w n) ∧
    trust st' = trust st ∧ intent st' = intent st ∧
    narrative st' = narrative st ∧ commitments st' = commitments st ∧
    (r = Returned risk ∨
     ∃ e, r = Raised e ∧ Gate.state (RLP0._gate k) = OPEN ∧
       (RLP0._rupture_threshold k <=? risk)%float = true ∧
       SignalBus._subscribers (RLP0._signal_bus k) ≠ []) ∧
    ((RLP0._rupture_threshold k <=? risk)%float && Gate.is_open (RLP0._gate k) = false →
     r = Returned risk ∧ k' = k ∧ last_updated st' = now_at w (ticks w) ∧
     ticks w' = S (ticks w) ∧ lists w' = lists w ∧ env w' = env w) ∧
    ((notify (SignalBus._subscribers (RLP0._signal_bus k))
        (rupture_signal (now_at w (S (ticks w))) risk (RLP0._rupture_threshold k))
        (env w)).1 = Returned tt →
     r = Returned risk) ∧
    (trust st = 0.2%float → intent st = 0.2%float → narrative st = 0.2%float →
     commitments st = 0.2%float → risk = 0.8%float).
Proof.
  intros Hst risk. change risk with (RLP0.risk_of st).
  assert (RLP0._state k < length (states w)) as Hlt by by eapply lookup_lt_Some.
  assert (trust st = 0.2%float → intent st = 0.2%float →
          narrative st = 0.2%float → commitments st = 0.2%float →
          RLP0.risk_of st = 0.8%float) as Hex.
  { unfold RLP0.risk_of. intros -> -> -> ->. by vm_compute. }
  destruct ((RLP0._rupture_threshold k <=? RLP0.risk_of st)%float
            && Gate.is_open (RLP0._gate k)) eqn:Hc.
  - apply andb_true_iff in Hc as [Hthr Hopen].
    assert (Gate.state (RLP0._gate k) = OPEN) as Hg.
    { unfold Gate.is_open in Hopen. by destruct (Gate.state _). }
    rewrite (compute_rupture _ _ _ Hst Hthr Hg).
    destruct (SignalBus._subscribers (RLP0._signal_bus k)) as [|c cs] eqn:Hsubs.
    + eexists _, _, _, _. split; [done|]. cbn. rewrite list_lookup_insert_eq by done.
      split_and!; try done; [exists (ticks w); split; [lia|done]|by left].
    + destruct (notify _ _ _).1 as [[]|e] eqn:Hn.
      * eexists _, _, _, _. split; [done|]. cbn. rewrite list_lookup_insert_eq by done.
        split_and!; try done; [exists (ticks w); split; [lia|done]|by left].
      * eexists _, _, _, _. split; [done|]. cbn. rewrite list_lookup_insert_eq by done.
        split_and!; try done; [exists (ticks w); split; [lia|done]|].
        right. by exists e.
  - rewrite (compute_quiet _ _ _ Hst Hc).
    eexists _, _, _, _. split; [done|]. cbn. rewrite list_lookup_insert_eq by done.
    split_and!; try done; [exists (ticks w); split; [lia|done]|by left].
Qed.

Lemma acknowledge_open k w :
  Gate.state (RLP0._gate k) = OPEN →
  RLP0.acknowledge_repair (k, w) = (Returned false, (k, w)).
Proof.
  intros Hg. unfold RLP0.acknowledge_repair, RLP0.is_gated, bind, Gate.is_closed. cbn.
  by rewrite Hg.
Qed.

Lemma acknowledge_closed k w st :
  states w !! RLP0._state k = Some st →
  Gate.state (RLP0._gate k) = CLOSED →
  let risk := RLP0.risk_of st in
  RLP0.acknowledge_repair (k, w) =
    (Returned true,
     (RLP0.set_gate {| Gate.state := OPEN; Gate.closed_at := None;
                       Gate.reason := None;
                       Gate.history := Gate.history (RLP0._gate k) |} k,
      {| now_at := now_at w; ticks := S (S (ticks w));
         states := <[RLP0._state k :=
                       RelationalState.with_is_gated false
                         (assessed st risk (now_at w (ticks w)))]> (states w);
         lists := alter (λ xs, xs ++ [released_event (now_at w (S (ticks w))) risk])
                    (Gate.history (RLP0._gate k)) (lists w);
         env := env w |})).
Proof.
  intros Hst Hg risk.
  assert (RLP0._state k < length (states w)) as Hlt by by eapply lookup_lt_Some.
  unfold RLP0.acknowledge_repair, RLP0.is_gated, bind, Gate.is_closed. cbn.
  rewrite Hg. cbn. rewrite (compute_closed _ _ _ Hst Hg). cbn.
  unfold world, read_state, on. cbn. rewrite list_lookup_insert_eq by done. cbn.
  rewrite (release_closed_alter _ _ _ Hg). cbn.
  unfold ret, set_states. cbn.
  rewrite (list_alter_Some _ _ _ (assessed st risk (now_at w (ticks w))))
    by by apply list_lookup_insert_eq.
  by rewrite list_insert_insert_eq.
Qed.

(** C3. [acknowledge_repair] returns true exactly when the gate is closed at
    the call.  On an open gate it returns false and the kernel and the store
    are as before.  On a closed gate it writes the recomputed risk and the
    time into the state, opens the gate and clears [closed_at] and [reason],
    appends exactly one "released" event carrying the recomputed risk to the
    history of the gate, sets [is_gated] to false and returns true, however
    the recomputed risk compares with the threshold. *)
Theorem acknowledge_repair_releases_unconditionally k w st evs :
  states w !! RLP0._state k = Some st →
  lists w !! Gate.history (RLP0._gate k) = Some evs →
  let risk := RLP0.risk_of st in
  RLP0.acknowledge_repair (k, w) =
    match Gate.state (RLP0._gate k) with
    | OPEN => (Returned false, (k, w))
    | CLOSED =>
        (Returned true,
         ({| RLP0._state := RLP0._state k;
             RLP0._gate := {| Gate.state := OPEN; Gate.closed_at := None;
                              Gate.reason := None;
                              Gate.history := Gate.history (RLP0._gate k) |};
             RLP0._signal_bus := RLP0._signal_bus k;
             RLP0._rupture_threshold := RLP0._rupture_threshold k |},
          {| now_at := now_at w; ticks := S (S (ticks w));
             states := <[RLP0._state k :=
                           {| semantic.trust := trust st;
                              semantic.intent := intent st;
                              semantic.narrative := narrative st;
                              semantic.commitments := commitments st;
                              semantic.rupture_risk := risk;
                              semantic.last_updated := now_at w (ticks w);
                              semantic.is_gated := false |}]> (states w);
             lists := <[Gate.history (RLP0._gate k) :=
                          evs ++ [released_event (now_at w (S (ticks w))) risk]]>
                        (lists w);
             env := env w |}))
    end.
Proof.
  intros Hst Hevs risk. destruct (Gate.state (RLP0._gate k)) eqn:Hg.
  - by apply acknowledge_open.
  - rewrite (acknowledge_closed _ _ _ Hst Hg).
    by rewrite (list_alter_Some _ _ _ _ Hevs).
Qed.

(** The three ways [update_state] goes. *)
Lemma update_state_nothing k w :
  RLP0.update_state None None None None (k, w) =
    (discard (RLP0.compute_rupture_risk (k, w)).1, (RLP0.compute_rupture_risk (k, w)).2).
Proof.
  unfold RLP0.update_state, bind. cbn.
  rewrite bool_decide_false by (intros H; by apply H). cbn.
  by destruct (RLP0.compute_rupture_risk (k, w)) as [[r|e] s].
Qed.

Lemma update_state_valid k w st t i n c :
  states w !! RLP0._state k = Some st →
  RLP0.updates_of t i n c ≠ ∅ →
  valid (merged st (RLP0.updates_of t i n c) 0%Z) = true →
  let now := now_at w (ticks w) in
  let s' := (RLP0.set_state (length (states w)) k,
             {| now_at := now_at w; ticks := S (ticks w);
                states := states w ++ [merged st (RLP0.updates_of t i n c) now];
                lists := lists w; env := env w |}) in
  RLP0.update_state t i n c (k, w) =
    (discard (RLP0.compute_rupture_risk s').1, (RLP0.compute_rupture_risk s').2).
Proof.
  intros Hst Hne Hv now s'. unfold RLP0.update_state, bind. cbn.
  rewrite bool_decide_true by done. unfold world. cbn.
  rewrite (update_valid _ _ _ _ Hst Hv). cbn. fold now. fold s'.
  by destruct (RLP0.compute_rupture_risk s') as [[r|e] s].
Qed.

Lemma update_state_invalid k w st t i n c :
  states w !! RLP0._state k = Some st →
  RLP0.updates_of t i n c ≠ ∅ →
  valid (merged st (RLP0.updates_of t i n c) 0%Z) = false →
  ∃ primitive value,
    RLP0.update_state t i n c (k, w) =
      (Raised (ValueError (RangeMessage primitive value)),
       (k, {| now_at := now_at w; ticks := S (ticks w); states := states w;
              lists := lists w; env := env w |})).
Proof.
  intros Hst Hne Hv.
  destruct (update_invalid _ _ _ _ Hst Hv) as (p & v & Hu). exists p, v.
  unfold RLP0.update_state, bind. cbn.
  rewrite bool_decide_true by done. unfold world. cbn. by rewrite Hu.
Qed.

(** C6. While the gate is closed, [compute_rupture_risk] returns the risk
    and writes it and the time of the call into the state, and that is all it
    does: no list changes, so no signal is recorded and no event is added to
    the history of the gate, no subscriber runs, and the gate is as before,
    however high the risk.  The same holds through [update_state]: either the
    given values are rejected and nothing is computed, or the call returns
    with the risk and the time written into the state it installed. *)
Theorem closed_gate_is_silent k w st :
  states w !! RLP0._state k = Some st →
  Gate.state (RLP0._gate k) = CLOSED →
  RLP0.compute_rupture_risk (k, w) =
    (Returned (RLP0.risk_of st),
     (k, {| now_at := now_at w; ticks := S (ticks w);
            states := <[RLP0._state k :=
                          {| semantic.trust := trust st;
                             semantic.intent := intent st;
                             semantic.narrative := narrative st;
                             semantic.commitments := commitments st;
                             semantic.rupture_risk := RLP0.risk_of st;
                             semantic.last_updated := now_at w (ticks w);
                             semantic.is_gated := is_gated st |}]> (states w);
            lists := lists w; env := env w |})) ∧
  ∀ t i n c,
    let new := merged st (RLP0.updates_of t i n c) (now_at w (ticks w)) in
    ∃ r k' w',
    RLP0.update_state t i n c (k, w) = (r, (k', w')) ∧
    lists w' = lists w ∧ env w' = env w ∧
    RLP0._gate k' = RLP0._gate k ∧ RLP0._signal_bus k' = RLP0._signal_bus k ∧
    (valid new = true → r = Returned tt) ∧
    ((r = Returned tt ∧
      ∃ st', states w' !! RLP0._state k' = Some st' ∧
        trust st' = trust new ∧ intent st' = intent new ∧
        narrative st' = narrative new ∧ commitments st' = commitments new ∧
        rupture_risk st' = RLP0.risk_of new ∧
        last_updated st' = now_at w (pred (ticks w'))) ∨
     (is_ValueError r = true ∧ valid new = false ∧ k' = k ∧ states w' = states w)).
Proof.
  intros Hst Hg. split; [by apply compute_closed|].
  assert (RLP0._state k < length (states w)) as Hlt by by eapply lookup_lt_Some.
  intros t i n c new.
  destruct (decide (RLP0.updates_of t i n c = ∅)) as [He|Hne].
  - apply updates_of_empty in He as (-> & -> & -> & ->).
    rewrite update_state_nothing, (compute_closed _ _ _ Hst Hg). cbn.
    eexists _, _, _. split; [done|]. split_and!; try done.
    left. split; [done|]. eexists. cbn. rewrite list_lookup_insert_eq by done. done.
  - destruct (valid (merged st (RLP0.updates_of t i n c) 0%Z)) eqn:Hv.
    + rewrite (update_state_valid _ _ _ _ _ _ _ Hst Hne Hv).
      erewrite compute_closed; [|by apply lookup_snoc_length|done]. cbn.
      eexists _, _, _. split; [done|]. split_and!; try done.
      left. split; [done|]. eexists. cbn.
      rewrite list_lookup_insert_eq by (rewrite length_app; cbn; lia). done.
    + destruct (update_state_invalid _ _ _ _ _ _ _ Hst Hne Hv) as (p & v & ->).
      eexists _, _, _. split; [done|]. split_and!; try done.
      * intros Hn. subst new. rewrite (valid_merged _ _ _ 0%Z) in Hn. congruence.
      * right. subst new. by rewrite (valid_merged _ _ _ 0%Z).
Qed.

(** C4. A value strictly outside the interval from 0.0 to 1.0 for any of the
    four signals makes the constructor and [update] raise [ValueError], with
    no instance created or changed.  [update_state] then raises it as well:
    the kernel keeps the state it had, and that state keeps its risk and its
    time stamp, so nothing was recomputed; no list and no subscriber is
    touched.  The values 0.0 and 1.0 are accepted by the constructor and by
    [update]. *)
Theorem out_of_range_signal_is_rejected :
  (∀ w (t i n c : float) r lu g,
     outside t ∨ outside i ∨ outside n ∨ outside c →
     ∃ msg w',
       RelationalState.new (Some t) (Some i) (Some n) (Some c) r lu g w
         = (Raised (ValueError msg), w') ∧
       states w' = states w ∧ lists w' = lists w ∧ env w' = env w) ∧
  (∀ w (s1 : loc) st (kwargs : gmap string float) p v,
     states w !! s1 = Some st →
     p ∈ RelationalState.primitives → kwargs !! p = Some v → outside v →
     ∃ msg w',
       RelationalState.update s1 kwargs w = (Raised (ValueError msg), w') ∧
       states w' = states w ∧ lists w' = lists w ∧ env w' = env w) ∧
  (∀ k w st (t i n c : option float) v,
     states w !! RLP0._state k = Some st →
     Some v ∈ [t; i; n; c] → outside v →
     ∃ msg w',
       RLP0.update_state t i n c (k, w) = (Raised (ValueError msg), (k, w')) ∧
       states w' = states w ∧ lists w' = lists w ∧ env w' = env w) ∧
  (∀ w (t i n c : float) r lu g,
     t ∈ [0%float; 1%float] → i ∈ [0%float; 1%float] →
     n ∈ [0%float; 1%float] → c ∈ [0%float; 1%float] →
     ∃ (l : loc) w',
       RelationalState.new (Some t) (Some i) (Some n) (Some c) r lu g w
         = (Returned l, w') ∧
       states w !! l = None ∧
       states w' !! l = Some (candidate (Some t) (Some i) (Some n) (Some c) r
                                (stamped lu w).1 g)) ∧
  (∀ w (s1 : loc) st (kwargs : gmap string float),
     states w !! s1 = Some st → valid st = true →
     (∀ p v, kwargs !! p = Some v → v ∈ [0%float; 1%float]) →
     ∃ (s2 : loc) w',
       RelationalState.update s1 kwargs w = (Returned s2, w') ∧
       states w' !! s2 = Some (merged st kwargs (now_at w (ticks w)))).
Proof.
  assert (∀ v, v ∈ [0%float; 1%float] → RelationalState.in_range v = true) as Hb.
  { intros v Hv. repeat (apply elem_of_cons in Hv as [->|Hv]);
      [apply in_range_zero|apply in_range_one|by apply elem_of_nil in Hv]. }
  split_and!.
  - intros w t i n c r lu g Ho.
    edestruct (new_invalid (Some t) (Some i) (Some n) (Some c) r lu g w)
      as (p & v & ->).
    { unfold valid. cbn.
      destruct Ho as [Ho|[Ho|[Ho|Ho]]]; apply outside_not_in_range in Ho;
        rewrite Ho; by rewrite ?andb_false_r. }
    eexists _, _. split; [done|]. by destruct lu.
  - intros w s1 st kwargs p v Hs Hp Hk Ho.
    destruct (update_invalid w s1 st kwargs Hs) as (p' & v' & ->).
    { by eapply valid_merged_outside. }
    by eexists _, _.
  - intros k w st t i n c v Hst Hin Ho.
    assert (∃ p, p ∈ RelationalState.primitives ∧
                 RLP0.updates_of t i n c !! p = Some v) as (p & Hp & Hk).
    { unfold RelationalState.primitives.
      repeat (apply elem_of_cons in Hin as [<-|Hin]); [..|by apply elem_of_nil in Hin].
      - exists "trust". by rewrite updates_of_trust; split; [set_solver|].
      - exists "intent". by rewrite updates_of_intent; split; [set_solver|].
      - exists "narrative". by rewrite updates_of_narrative; split; [set_solver|].
      - exists "commitments". by rewrite updates_of_commitments; split; [set_solver|]. }
    edestruct (update_state_invalid k w st t i n c Hst) as (p' & v' & ->).
    { intros He. by rewrite He in Hk. }
    { by eapply valid_merged_outside. }
    by eexists _, _.
  - intros w t i n c r lu g Ht Hi Hn Hc.
    rewrite new_valid.
    + eexists _, _. split; [done|]. split; [by apply lookup_ge_None|].
      destruct lu; apply lookup_snoc_length.
    + unfold valid. cbn. by rewrite !Hb.
  - intros w s1 st kwargs Hs Hv Hk.
    rewrite (update_valid _ _ _ _ Hs).
    + eexists _, _. split; [done|]. apply lookup_snoc_length.
    + apply valid_merged_in_range; [done|]. intros p v _ Hp. eauto.
Qed.

(** *** What the accessors hand out *)

Lemma entries_of_events (evs : list item) :
  forallb is_event evs = true → RLP0.entries_of evs = Returned (as_entry <$> evs).
Proof.
  induction evs as [|[s|e|d] evs IH]; cbn; try done.
  intros H. by rewrite (IH H).
Qed.

Lemma signal_history_spec k w sigs :
  lists w !! SignalBus._history (RLP0._signal_bus k) = Some sigs →
  RLP0.signal_history (k, w) =
    (Returned (length (lists w)), (k, set_lists (lists w ++ [sigs]) w)).
Proof.
  intros Hs. destruct k as [l g b thr]. cbn in *.
  unfold RLP0.signal_history, on, SignalBus.history, bind, world, list_copy, bind, read_list.
  cbn. rewrite Hs. done.
Qed.

Lemma status_spec k w st sigs evs :
  states w !! RLP0._state k = Some st →
  lists w !! SignalBus._history (RLP0._signal_bus k) = Some sigs →
  lists w !! Gate.history (RLP0._gate k) = Some evs →
  forallb is_event evs = true →
  RLP0.status (k, w) =
    (Returned {| RLP0.status_state :=
                   {| StateDict.trust := trust st;
                      StateDict.intent := intent st;
                      StateDict.narrative := narrative st;
                      StateDict.commitments := commitments st;
                      StateDict.rupture_risk := rupture_risk st;
                      StateDict.is_gated := is_gated st;
                      StateDict.last_updated := isoformat (last_updated st) |};
                 RLP0.status_is_gated := Gate.is_closed (RLP0._gate k);
                 RLP0.status_rupture_threshold := RLP0._rupture_threshold k;
                 RLP0.status_signal_count := length sigs;
                 RLP0.status_gate_history := S (length (lists w)) |},
     (k, set_lists (lists w ++ [sigs] ++ [as_entry <$> evs]) w)).
Proof.
  intros Hst Hs He Hev. destruct k as [l g b thr]. cbn in *.
  assert (Gate.history g < length (lists w)) as Hlt by by eapply lookup_lt_Some.
  unfold RLP0.status, RLP0.is_gated, RelationalState.as_dict, on, SignalBus.history,
    bind, world, list_copy, bind, read_list, read_state.
  cbn. rewrite Hst. cbn. rewrite Hs. cbn.
  rewrite lookup_snoc_length. cbn.
  rewrite lookup_app_l by done. rewrite He. rewrite (entries_of_events _ Hev). cbn.
  unfold ret, set_lists. cbn. rewrite length_app. cbn.
  rewrite Nat.add_1_r, <-app_assoc. done.
Qed.

Lemma signal_history_frame k w :
  ∃ r w', RLP0.signal_history (k, w) = (r, (k, w')) ∧ states w' = states w ∧
          now_at w' = now_at w.
Proof.
  destruct k as [l g b thr].
  unfold RLP0.signal_history, on, SignalBus.history, bind, world, list_copy, bind, read_list.
  cbn. destruct (lists w !! SignalBus._history b); cbn; by eexists _, _.
Qed.

Lemma status_frame k w :
  ∃ r w', RLP0.status (k, w) = (r, (k, w')) ∧ states w' = states w.
Proof.
  destruct k as [l g b thr].
  unfold RLP0.status, RLP0.is_gated, RelationalState.as_dict, on, SignalBus.history,
    bind, world, list_copy, bind, read_list, read_state.
  cbn. destruct (states w !! l); cbn; [|by eexists _, _].
  destruct (lists w !! SignalBus._history b); cbn; [|by eexists _, _].
  rewrite lookup_snoc_length. cbn.
  destruct ((lists w ++ _) !! Gate.history g); cbn; [|by eexists _, _].
  destruct (RLP0.entries_of _); cbn; by eexists _, _.
Qed.

(** C8. The list that [signal_history] returns and the list under
    "gate_history" in what [status] returns are new list objects with the
    contents of the internal records (the events rendered as dictionaries):
    whatever a caller then does to them in place, the history of the bus and
    the history of the gate hold what they held. *)
Theorem returned_histories_are_copies k w st sigs evs :
  states w !! RLP0._state k = Some st →
  lists w !! SignalBus._history (RLP0._signal_bus k) = Some sigs →
  lists w !! Gate.history (RLP0._gate k) = Some evs →
  forallb is_event evs = true →
  (∃ (r : loc) w',
     RLP0.signal_history (k, w) = (Returned r, (k, w')) ∧
     lists w !! r = None ∧
     lists w' !! r = Some sigs ∧
     ∀ f, let w'' := (mutate_list r f w').2 in
          lists w'' !! r = Some (f sigs) ∧
          lists w'' !! SignalBus._history (RLP0._signal_bus k) = Some sigs ∧
          lists w'' !! Gate.history (RLP0._gate k) = Some evs) ∧
  (∃ d w',
     RLP0.status (k, w) = (Returned d, (k, w')) ∧
     RLP0.status_signal_count d = length sigs ∧
     lists w !! RLP0.status_gate_history d = None ∧
     lists w' !! RLP0.status_gate_history d = Some (as_entry <$> evs) ∧
     ∀ f, let w'' := (mutate_list (RLP0.status_gate_history d) f w').2 in
          lists w'' !! RLP0.status_gate_history d = Some (f (as_entry <$> evs)) ∧
          lists w'' !! SignalBus._history (RLP0._signal_bus k) = Some sigs ∧
          lists w'' !! Gate.history (RLP0._gate k) = Some evs).
Proof.
  intros Hst Hs He Hev.
  pose proof (lookup_lt_Some _ _ _ Hs) as Hls.
  pose proof (lookup_lt_Some _ _ _ He) as Hle.
  split.
  - rewrite (signal_history_spec _ _ _ Hs). eexists _, _. split; [done|]. cbn.
    split_and!.
    + by apply lookup_ge_None.
    + apply lookup_snoc_length.
    + intros f. cbn. split_and!.
      * by rewrite list_lookup_alter_eq, lookup_snoc_length.
      * rewrite list_lookup_alter_ne by lia. by apply lookup_app_l_Some.
      * rewrite list_lookup_alter_ne by lia. by apply lookup_app_l_Some.
  - rewrite (status_spec _ _ _ _ _ Hst Hs He Hev). eexists _, _. split; [done|]. cbn.
    assert ((lists w ++ [sigs; as_entry <$> evs]) !! S (length (lists w))
            = Some (as_entry <$> evs)) as Hnew.
    { rewrite lookup_app_r by lia. by replace (S _ - _) with 1 by lia. }
    split_and!.
    + done.
    + apply lookup_ge_None. lia.
    + done.
    + intros f. cbn. split_and!.
      * by rewrite list_lookup_alter_eq, Hnew.
      * rewrite list_lookup_alter_ne by lia. by apply lookup_app_l_Some.
      * rewrite list_lookup_alter_ne by lia. by apply lookup_app_l_Some.
Qed.

(** *** The two flags *)

Lemma compute_agree (s : RLP0.t Env * World Env) :
  flags_agree s → flags_agree (RLP0.compute_rupture_risk s).2.
Proof.
  destruct s as [k w]. intros (st & Hst & Hag). cbn in *.
  assert (RLP0._state k < length (states w)) as Hlt by by eapply lookup_lt_Some.
  destruct ((RLP0._rupture_threshold k <=? RLP0.risk_of st)%float
            && Gate.is_open (RLP0._gate k)) eqn:Hc.
  - apply andb_true_iff in Hc as [Hthr Hopen].
    assert (Gate.state (RLP0._gate k) = OPEN) as Hg.
    { unfold Gate.is_open in Hopen. by destruct (Gate.state _). }
    rewrite (compute_rupture _ _ _ Hst Hthr Hg).
    destruct (notify _ _ _).1 as [[]|e]; eexists; cbn;
      by rewrite list_lookup_insert_eq by done.
  - rewrite (compute_quiet _ _ _ Hst Hc). eexists. cbn.
    by rewrite list_lookup_insert_eq by done.
Qed.

Lemma update_state_agree t i n c (s : RLP0.t Env * World Env) :
  flags_agree s → flags_agree (RLP0.update_state t i n c s).2.
Proof.
  destruct s as [k w]. intros Hag. pose proof Hag as (st & Hst & Hf). cbn in *.
  destruct (decide (RLP0.updates_of t i n c = ∅)) as [He|Hne].
  - apply updates_of_empty in He as (-> & -> & -> & ->).
    rewrite update_state_nothing. cbn. by apply compute_agree.
  - destruct (valid (merged st (RLP0.updates_of t i n c) 0%Z)) eqn:Hv.
    + rewrite (update_state_valid _ _ _ _ _ _ _ Hst Hne Hv). cbn.
      apply compute_agree. eexists. cbn. by rewrite lookup_snoc_length.
    + destruct (update_state_invalid _ _ _ _ _ _ _ Hst Hne Hv) as (p & v & ->).
      by exists st.
Qed.

Lemma acknowledge_agree (s : RLP0.t Env * World Env) :
  flags_agree s → flags_agree (RLP0.acknowledge_repair s).2.
Proof.
  destruct s as [k w]. intros Hag. pose proof Hag as (st & Hst & Hf). cbn in *.
  assert (RLP0._state k < length (states w)) as Hlt by by eapply lookup_lt_Some.
  destruct (Gate.state (RLP0._gate k)) eqn:Hg.
  - by rewrite (acknowledge_open _ _ Hg).
  - rewrite (acknowledge_closed _ _ _ Hst Hg). eexists. cbn.
    by rewrite list_lookup_insert_eq by done.
Qed.

Lemma run_op_agree o (s : RLP0.t Env * World Env) :
  flags_agree s → flags_agree (run_op o s).
Proof.
  destruct o; cbn; unfold after;
    [by apply update_state_agree|by apply compute_agree|by apply acknowledge_agree|..];
    destruct s as [k w]; intros (st & Hst & Hf); cbn in *.
  - by exists st.
  - by exists st.
  - unfold RLP0.unsubscribe, on, SignalBus.unsubscribe, bind. cbn.
    destruct (SignalBus.contains _ _); by exists st.
  - destruct (status_frame k w) as (r & w' & -> & Hw). exists st. cbn. by rewrite Hw.
  - destruct (signal_history_frame k w) as (r & w' & -> & Hw & _). exists st. cbn.
    by rewrite Hw.
  - by exists st.
  - unfold RLP0.rupture_risk, bind, world, read_state. cbn. rewrite Hst. by exists st.
  - by exists st.
Qed.

Lemma run_ops_agree ops (s : RLP0.t Env * World Env) :
  flags_agree s → flags_agree (run_ops ops s).
Proof.
  revert s. induction ops as [|o ops IH]; intros s Hs; [done|].
  cbn. apply IH. by apply run_op_agree.
Qed.

Lemma default_state_valid stamp :
  valid (candidate None None None None None stamp None) = true.
Proof. by vm_compute. Qed.

(** The kernel that [RLP0(threshold)] builds, and the store after it. *)
Lemma new_default threshold w :
  RLP0.new threshold None w =
    (Returned
       {| RLP0._state := length (states w);
          RLP0._gate := {| Gate.state := OPEN; Gate.closed_at := None;
                           Gate.reason := None; Gate.history := length (lists w) |};
          RLP0._signal_bus := {| SignalBus._subscribers := [];
                                 SignalBus._history := S (length (lists w)) |};
          RLP0._rupture_threshold :=
            default RLP0.DEFAULT_RUPTURE_THRESHOLD threshold |},
     {| now_at := now_at w; ticks := S (ticks w);
        states := states w ++ [candidate None None None None None
                                 (now_at w (ticks w)) None];
        lists := lists w ++ [[]; []]; env := env w |}).
Proof.
  unfold RLP0.new, bind.
  rewrite new_valid by apply default_state_valid. cbn.
  unfold set_lists. cbn. rewrite length_app. cbn.
  by rewrite Nat.add_1_r, <-app_assoc.
Qed.

(** C9. A kernel built without an initial state, after any sequence of
    public operations (some of which may have raised), has a state whose
    [is_gated] field equals what the [is_gated] property returns, which is
    true exactly when the gate is CLOSED, and [check_gate] returns the
    negation. *)
Theorem gated_flags_always_agree (threshold : option float) (w0 : World Env)
    (ops : list Op) :
  ∃ k0 w1,
    RLP0.new threshold None w0 = (Returned k0, w1) ∧
    let s := run_ops ops (k0, w1) in
    ∃ st (gated : bool),
      states s.2 !! RLP0._state s.1 = Some st ∧
      is_gated st = gated ∧
      RLP0.is_gated s = (Returned gated, s) ∧
      (Gate.state (RLP0._gate s.1) = CLOSED ↔ gated = true) ∧
      RLP0.check_gate s = (Returned (negb gated), s).
Proof.
  eexists _, _. split; [apply new_default|]. cbn zeta.
  match goal with |- context [run_ops ops ?s0] =>
    assert (flags_agree s0) as H0 by (eexists; cbn; by rewrite lookup_snoc_length);
    pose proof (run_ops_agree ops _ H0) as Hag;
    destruct (run_ops ops s0) as [k w] end.
  destruct Hag as (st & Hst & Hf). cbn in *.
  exists st, (is_gated st). split_and!; try done.
  - unfold RLP0.is_gated, bind. cbn. by rewrite Hf.
  - rewrite Hf. unfold Gate.is_closed. destruct (Gate.state _); split; congruence.
  - rewrite Hf. destruct k as [l [gs ca re h] b thr]. cbn.
    unfold RLP0.check_gate, on, Gate.check, bind, Gate.is_open, Gate.is_closed. cbn.
    by destruct gs.
Qed.

(** *** A state supplied by the client *)

Lemma new_with_state threshold (l : loc) w :
  RLP0.new threshold (Some l) w =
    (Returned
       {| RLP0._state := l;
          RLP0._gate := {| Gate.state := OPEN; Gate.closed_at := None;
                           Gate.reason := None; Gate.history := length (lists w) |};
          RLP0._signal_bus := {| SignalBus._subscribers := [];
                                 SignalBus._history := S (length (lists w)) |};
          RLP0._rupture_threshold :=
            default RLP0.DEFAULT_RUPTURE_THRESHOLD threshold |},
     {| now_at := now_at w; ticks := ticks w; states := states w;
        lists := lists w ++ [[]; []]; env := env w |}).
Proof.
  unfold RLP0.new, bind. cbn. unfold set_lists. cbn. rewrite length_app. cbn.
  by rewrite Nat.add_1_r, <-app_assoc.
Qed.

Lemma run_op_untouched (l : loc) st o (s : RLP0.t Env * World Env) :
  recomputes o = false → untouched l st s → untouched l st (run_op o s).
Proof.
  destruct s as [k w]. unfold untouched.
  destruct o; cbn; try done; intros _ (Hg & Hl & Hst); unfold after; cbn; try done.
  - by rewrite (acknowledge_open _ _ Hg).
  - unfold RLP0.unsubscribe, on, SignalBus.unsubscribe, bind. cbn.
    by destruct (SignalBus.contains _ _).
  - destruct (status_frame k w) as (r & w' & -> & Hw). cbn. by rewrite Hw.
  - destruct (signal_history_frame k w) as (r & w' & -> & Hw & _). cbn. by rewrite Hw.
  - unfold RLP0.rupture_risk, bind, world, read_state. cbn. by rewrite Hl, Hst.
Qed.

Lemma run_ops_untouched (l : loc) st ops (s : RLP0.t Env * World Env) :
  forallb (λ o, negb (recomputes o)) ops = true →
  untouched l st s → untouched l st (run_ops ops s).
Proof.
  revert s. induction ops as [|o ops IH]; intros s Hops Hs; [done|].
  cbn in Hops. apply andb_true_iff in Hops as [Ho Hops].
  cbn. apply IH; [done|]. apply run_op_untouched; [|done]. by destruct (recomputes o).
Qed.

Lemma compute_overwrites k w st :
  states w !! RLP0._state k = Some st →
  ∃ st', states (RLP0.compute_rupture_risk (k, w)).2.2 !! RLP0._state k = Some st' ∧
         rupture_risk st' = RLP0.risk_of st.
Proof.
  intros Hst.
  assert (RLP0._state k < length (states w)) as Hlt by by eapply lookup_lt_Some.
  destruct ((RLP0._rupture_threshold k <=? RLP0.risk_of st)%float
            && Gate.is_open (RLP0._gate k)) eqn:Hc.
  - apply andb_true_iff in Hc as [Hthr Hopen].
    assert (Gate.state (RLP0._gate k) = OPEN) as Hg.
    { unfold Gate.is_open in Hopen. by destruct (Gate.state _). }
    rewrite (compute_rupture _ _ _ Hst Hthr Hg).
    destruct (notify _ _ _).1 as [[]|e]; eexists; cbn;
      by rewrite list_lookup_insert_eq by done.
  - rewrite (compute_quiet _ _ _ Hst Hc). eexists. cbn.
    by rewrite list_lookup_insert_eq by done.
Qed.

(** C10. The constructor tests the four primitives and nothing else: with
    the four in range it returns for any [rupture_risk] and any [is_gated],
    and stores them as given.  A kernel built on such a state reads that risk
    back through [rupture_risk] after any sequence of operations in which
    neither [update_state] nor [compute_rupture_risk] occurs; the next
    [compute_rupture_risk] replaces it by the mean deficiency of the four
    primitives. *)
Theorem unvalidated_risk_persists_until_computed (w : World Env)
    (t i n c r : float) (g : bool) (threshold : option float) (ops : list Op) :
  RelationalState.in_range t = true → RelationalState.in_range i = true →
  RelationalState.in_range n = true → RelationalState.in_range c = true →
  forallb (λ o, negb (recomputes o)) ops = true →
  let given := {| semantic.trust := t; semantic.intent := i;
                  semantic.narrative := n; semantic.commitments := c;
                  semantic.rupture_risk := r;
                  semantic.last_updated := now_at w (ticks w);
                  semantic.is_gated := g |} in
  ∃ (l : loc) w1 k w2,
    RelationalState.new (Some t) (Some i) (Some n) (Some c) (Some r) None (Some g) w
      = (Returned l, w1) ∧
    states w1 !! l = Some given ∧
    RLP0.new threshold (Some l) w1 = (Returned k, w2) ∧
    RLP0._state k = l ∧
    let s := run_ops ops (k, w2) in
    RLP0.rupture_risk s = (Returned r, s) ∧
    states s.2 !! RLP0._state s.1 = Some given ∧
    ∃ st', states (RLP0.compute_rupture_risk s).2.2 !! RLP0._state s.1 = Some st' ∧
           rupture_risk st' = (((1 - t) + (1 - i) + (1 - n) + (1 - c)) / 4)%float.
Proof.
  intros Ht Hi Hn Hc Hops given.
  eexists _, _, _, _. rewrite new_valid by (unfold valid; cbn; by rewrite Ht, Hi, Hn, Hc).
  split; [done|]. cbn. split; [apply lookup_snoc_length|].
  rewrite new_with_state. split; [done|]. split; [done|]. cbn zeta.
  match goal with |- context [run_ops ops ?s0] =>
    assert (untouched (length (states w)) given s0) as H0
      by (split_and!; [done|done|apply lookup_snoc_length]);
    pose proof (run_ops_untouched _ _ ops _ Hops H0) as Hu;
    destruct (run_ops ops s0) as [k' w'] end.
  destruct Hu as (Hg & Hl & Hst). cbn in *. rewrite <-Hl in Hst. split_and!.
  - unfold RLP0.rupture_risk, bind, world, read_state. cbn. by rewrite Hst.
  - done.
  - destruct (compute_overwrites _ _ _ Hst) as (st' & H1 & H2). by exists st'.
Qed.

End KernelProperties.

(** * The properties on concrete clients *)

(** The concrete kernels are the ones the program builds. *)
Lemma distressed_reached callback :
  distressed callback world0 = (Returned (distressed_kernel callback), distressed_world).
Proof. by vm_compute. Qed.

Lemma gated_reached :
  RLP0.compute_rupture_risk (distressed_kernel collector, distressed_world) =
    (Returned 0.8%float, (gated_kernel, gated_world)).
Proof. by vm_compute. Qed.

(** C1.  The code does not do what the claim and the docstring of
    [compute_rupture_risk] say when a subscriber raises.  After
    [RLP0(0.5, RelationalState(0.2, 0.2, 0.2, 0.2))] and [subscribe(faulty)],
    the gate is open and [compute_rupture_risk] computes 0.8, which reaches
    the threshold 0.5: the call records the signal, runs the subscriber
    before it closes the gate, and raises what the subscriber raised.  It
    leaves the gate OPEN with an empty history and [is_gated] false, where
    the claim has the gate CLOSED, a "closed" event and [is_gated] true. *)
Lemma rupture_with_faulty_subscriber_leaves_gate_open :
  Gate.state (RLP0._gate (distressed_kernel faulty)) = OPEN ∧
  RLP0.risk_of distressed_state = 0.8%float ∧
  (RLP0._rupture_threshold (distressed_kernel faulty) <=? 0.8)%float = true ∧
  RLP0.compute_rupture_risk (distressed_kernel faulty, distressed_world) =
    (Raised (Exception "RuntimeError"), (distressed_kernel faulty, aborted_world)) ∧
  Gate.state (RLP0._gate (distressed_kernel faulty)) ≠ CLOSED ∧
  lists aborted_world !! Gate.history (RLP0._gate (distressed_kernel faulty)) = Some [] ∧
  is_gated <$> states aborted_world !! RLP0._state (distressed_kernel faulty) = Some false.
Proof. split_and!; by vm_compute. Qed.

(** C2, as stated, fails when a subscriber raises: with all four signals at
    0.2 and the threshold at 0.5, the call on a kernel whose gate is open and
    whose subscriber raises does not return 0.8, it raises; the risk 0.8 is
    in the state all the same. *)
Lemma rupture_with_faulty_subscriber_does_not_return :
  states distressed_world !! RLP0._state (distressed_kernel faulty) = Some distressed_state ∧
  trust distressed_state = 0.2%float ∧ intent distressed_state = 0.2%float ∧
  narrative distressed_state = 0.2%float ∧ commitments distressed_state = 0.2%float ∧
  (RLP0.compute_rupture_risk (distressed_kernel faulty, distressed_world)).1 =
    Raised (Exception "RuntimeError") ∧
  rupture_risk <$> states (RLP0.compute_rupture_risk
                             (distressed_kernel faulty, distressed_world)).2.2
                     !! RLP0._state (distressed_kernel faulty) = Some 0.8%float.
Proof. split_and!; by vm_compute. Qed.

Lemma compute_rupture_risk_is_mean_deficiency_witness :
  ∃ st', states (RLP0.compute_rupture_risk
                   (distressed_kernel collector, distressed_world)).2.2 !! 0 = Some st' ∧
         rupture_risk st' = 0.8%float.
Proof.
  destruct (compute_rupture_risk_is_mean_deficiency
              (distressed_kernel collector) distressed_world distressed_state)
    as (r & k' & w' & st' & Hrun & Hst & Hrisk & _ & _ & _ & _ & _ & _ & _ & _ & Hex);
    [reflexivity|].
  exists st'. rewrite Hrun. split; [exact Hst|].
  rewrite Hrisk. apply Hex; reflexivity.
Defined.

Lemma acknowledge_repair_releases_unconditionally_witness :
  (RLP0.acknowledge_repair (gated_kernel, gated_world)).1 = Returned true ∧
  (RLP0._rupture_threshold gated_kernel <=? RLP0.risk_of gated_state)%float = true.
Proof.
  rewrite (acknowledge_repair_releases_unconditionally gated_kernel gated_world
             gated_state [closed_event 3%Z (CloseReason 0.8%float 0.5%float) 0.8%float]);
    [|reflexivity|reflexivity].
  split; [reflexivity|by vm_compute].
Defined.

Lemma out_of_range_signal_is_rejected_witness :
  ∃ msg w',
    RLP0.update_state (Some 1.5%float) None None None
      (distressed_kernel collector, distressed_world) =
      (Raised (ValueError msg), (distressed_kernel collector, w')) ∧
    states w' = states distressed_world.
Proof.
  destruct (@out_of_range_signal_is_rejected Env0) as (_ & _ & H & _).
  destruct (H (distressed_kernel collector) distressed_world distressed_state
              (Some 1.5%float) None None None 1.5%float)
    as (msg & w' & Hrun & Hst & _).
  - reflexivity.
  - by constructor.
  - right. by vm_compute.
  - exists msg, w'. split; [exact Hrun|exact Hst].
Defined.

Lemma update_returns_new_instance_witness :
  ∃ (s2 : loc) w' st2,
    RelationalState.update 0 {["trust" := 0.5%float]} distressed_world
      = (Returned s2, w') ∧
    states w' !! 0 = Some distressed_state ∧
    states w' !! s2 = Some st2 ∧
    trust st2 = 0.5%float ∧ intent st2 = 0.2%float ∧
    rupture_risk st2 = rupture_risk distressed_state.
Proof.
  destruct (update_returns_new_instance distressed_world 0 distressed_state
              {["trust" := 0.5%float]}) as [_ H]; [reflexivity|].
  destruct H as (s2 & w' & st2 & Hrun & _ & _ & H1 & H2 & Ht & Hi & _ & _ & Hr & _).
  - by vm_compute.
  - intros p v _ Hp. apply lookup_singleton_Some in Hp as [_ <-]. by vm_compute.
  - exists s2, w', st2. split_and!; [exact Hrun|exact H1|exact H2|exact Ht|exact Hi|exact Hr].
Defined.

Lemma closed_gate_is_silent_witness :
  RLP0.compute_rupture_risk (gated_kernel, gated_world) =
    (Returned 0.8%float,
     (gated_kernel,
      {| now_at := Z.of_nat; ticks := 5;
         states := [assessed gated_state 0.8%float 4%Z];
         lists := lists gated_world; env := env gated_world |})).
Proof.
  destruct (closed_gate_is_silent gated_kernel gated_world gated_state) as [H _];
    [reflexivity|reflexivity|].
  rewrite H. by vm_compute.
Defined.

Lemma gate_operations_total_idempotent_witness :
  (Gate.close (Literal "first") 0.9%float ;;; Gate.close (Literal "second") 0.1%float)
    (RLP0._gate (distressed_kernel collector), distressed_world) =
  Gate.close (Literal "first") 0.9%float
    (RLP0._gate (distressed_kernel collector), distressed_world).
Proof.
  apply (gate_operations_total_idempotent
           (RLP0._gate (distressed_kernel collector)) distressed_world []
           (Literal "first") 0.9%float).
  reflexivity.
Defined.

Lemma returned_histories_are_copies_witness :
  ∃ (r : loc) w',
    RLP0.signal_history (gated_kernel, gated_world) = (Returned r, (gated_kernel, w')) ∧
    lists (mutate_list r (λ _, []) w').2 !! 1 = lists gated_world !! 1.
Proof.
  destruct (returned_histories_are_copies gated_kernel gated_world gated_state
              [ISignal (rupture_signal 2%Z 0.8%float 0.5%float)]
              [closed_event 3%Z (CloseReason 0.8%float 0.5%float) 0.8%float])
    as [(r & w' & Hrun & _ & _ & Hf) _]; [reflexivity..|].
  exists r, w'. split; [exact Hrun|]. destruct (Hf (λ _, [])) as (_ & H & _). exact H.
Defined.

Lemma unvalidated_risk_persists_until_computed_witness :
  ∃ (l : loc) w1 k w2,
    RelationalState.new (Some 1%float) (Some 1%float) (Some 1%float) (Some 1%float)
      (Some 5%float) None (Some false) world0 = (Returned l, w1) ∧
    RLP0.new None (Some l) w1 = (Returned k, w2) ∧
    RLP0.rupture_risk (run_ops [Status; AcknowledgeRepair; CheckGate] (k, w2)) =
      (Returned 5%float, run_ops [Status; AcknowledgeRepair; CheckGate] (k, w2)).
Proof.
  destruct (unvalidated_risk_persists_until_computed world0 1%float 1%float 1%float
              1%float 5%float false None [Status; AcknowledgeRepair; CheckGate])
    as (l & w1 & k & w2 & Hnew & _ & Hk & _ & Hread & _); [reflexivity..|].
  exists l, w1, k, w2. split_and!; [exact Hnew|exact Hk|exact Hread].
Defined.

(** * Further properties *)

Section FurtherProperties.
Context {Env : Type}.
Implicit Types (k : RLP0.t Env) (w : World Env) (b : SignalBus.t Env).
Implicit Types (st : RelationalState) (x : tracked).

(** ** What one operation does to the gate and the two histories *)

Lemma compute_tracks k w x :
  tracks (k, w) x →
  ∃ x', tracks (RLP0.compute_rupture_risk (k, w)).2 x' ∧
        step (RLP0._rupture_threshold k) x x' ∧
        same_frame k (RLP0.compute_rupture_risk (k, w)).2.1 ∧
        RLP0._state (RLP0.compute_rupture_risk (k, w)).2.1 = RLP0._state k.
Proof.
  destruct x as [g sigs evs]. intros (Hg & Hs & He & Hne & [st Hst]). cbn in *.
  assert (RLP0._state k < length (states w)) as Hlt by by eapply lookup_lt_Some.
  destruct ((RLP0._rupture_threshold k <=? RLP0.risk_of st)%float
            && Gate.is_open (RLP0._gate k)) eqn:Hc.
  - apply andb_true_iff in Hc as [Hthr Hopen].
    assert (Gate.state (RLP0._gate k) = OPEN) as Ho.
    { unfold Gate.is_open in Hopen. by destruct (Gate.state _). }
    rewrite (compute_rupture _ _ _ Hst Hthr Ho).
    destruct (notify _ _ _).1 as [[]|e].
    + eexists {| gate_now := _; signals_now := _; events_now := _ |}.
      split; [|split; [|split]]; [unfold tracks; cbn; split_and!| |done|done].
      * done.
      * by rewrite list_lookup_alter_ne, list_lookup_alter_eq, Hs by done.
      * by rewrite list_lookup_alter_eq, list_lookup_alter_ne, He by done.
      * done.
      * rewrite list_lookup_insert_eq by done. by eexists.
      * cbn. rewrite <-Hg. by apply step_rupture.
    + eexists {| gate_now := g; signals_now := _; events_now := evs |}.
      split; [|split; [|split]]; [unfold tracks; cbn; split_and!| |done|done].
      * done.
      * by rewrite list_lookup_alter_eq, Hs.
      * by rewrite list_lookup_alter_ne, He by done.
      * done.
      * rewrite list_lookup_insert_eq by done. by eexists.
      * apply step_aborted; [by rewrite <-Hg|done].
  - rewrite (compute_quiet _ _ _ Hst Hc).
    exists {| gate_now := g; signals_now := sigs; events_now := evs |}.
    split; [|split; [|split]]; [unfold tracks; cbn; split_and!| |done|done];
      try done.
    + rewrite list_lookup_insert_eq by done. by eexists.
    + apply step_nothing.
Qed.

Lemma update_state_tracks t i n c k w x :
  tracks (k, w) x →
  ∃ x', tracks (RLP0.update_state t i n c (k, w)).2 x' ∧
        step (RLP0._rupture_threshold k) x x' ∧
        same_frame k (RLP0.update_state t i n c (k, w)).2.1.
Proof.
  intros Hx. pose proof Hx as (Hg & Hs & He & Hne & [st Hst]). cbn in *.
  destruct (decide (RLP0.updates_of t i n c = ∅)) as [Hem|Hnem].
  - apply updates_of_empty in Hem as (-> & -> & -> & ->).
    rewrite update_state_nothing. cbn.
    destruct (compute_tracks k w x Hx) as (x' & ? & ? & ? & _). by exists x'.
  - destruct (valid (merged st (RLP0.updates_of t i n c) 0%Z)) eqn:Hv.
    + rewrite (update_state_valid _ _ _ _ _ _ _ Hst Hnem Hv). cbn.
      match goal with |- context [RLP0.compute_rupture_risk (?k1, ?w1)] =>
        destruct (compute_tracks k1 w1 x) as (x' & ? & ? & ? & _) end.
      { unfold tracks. cbn. split_and!; try done.
        rewrite lookup_snoc_length. by eexists. }
      by exists x'.
    + destruct (update_state_invalid _ _ _ _ _ _ _ Hst Hnem Hv) as (p & v & ->).
      exists x. split; [|split; [apply step_nothing|done]].
      unfold tracks. cbn. split_and!; first [done|by eexists].
Qed.

Lemma acknowledge_tracks k w x :
  tracks (k, w) x →
  ∃ x', tracks (RLP0.acknowledge_repair (k, w)).2 x' ∧
        step (RLP0._rupture_threshold k) x x' ∧
        same_frame k (RLP0.acknowledge_repair (k, w)).2.1.
Proof.
  destruct x as [g sigs evs]. intros Hx.
  pose proof Hx as (Hg & Hs & He & Hne & [st Hst]). cbn in *.
  assert (RLP0._state k < length (states w)) as Hlt by by eapply lookup_lt_Some.
  destruct (Gate.state (RLP0._gate k)) eqn:Hgs.
  - rewrite (acknowledge_open _ _ Hgs). eexists. split; [done|].
    split; [apply step_nothing|done].
  - rewrite (acknowledge_closed _ _ _ Hst Hgs).
    eexists {| gate_now := _; signals_now := sigs; events_now := _ |}.
    split; [|split]; [unfold tracks; cbn; split_and!| |done].
    + done.
    + by rewrite list_lookup_alter_ne, Hs by done.
    + by rewrite list_lookup_alter_eq, He.
    + done.
    + rewrite list_lookup_insert_eq by done. by eexists.
    + cbn. rewrite <-Hg. by apply step_release.
Qed.

Lemma signal_history_grows k w :
  ∃ r w' extra, RLP0.signal_history (k, w) = (r, (k, w')) ∧
                states w' = states w ∧ lists w' = lists w ++ extra.
Proof.
  destruct k as [l g b thr].
  unfold RLP0.signal_history, on, SignalBus.history, bind, world, list_copy, bind, read_list.
  cbn. destruct (lists w !! SignalBus._history b); cbn.
  - by eexists _, _, [_].
  - eexists _, _, []. by rewrite app_nil_r.
Qed.

Lemma status_grows k w :
  ∃ r w' extra, RLP0.status (k, w) = (r, (k, w')) ∧
                states w' = states w ∧ lists w' = lists w ++ extra.
Proof.
  destruct k as [l g b thr].
  unfold RLP0.status, RLP0.is_gated, RelationalState.as_dict, on, SignalBus.history,
    bind, world, list_copy, bind, read_list, read_state.
  cbn. destruct (states w !! l); cbn; [|eexists _, _, []; by rewrite app_nil_r].
  destruct (lists w !! SignalBus._history b); cbn;
    [|eexists _, _, []; by rewrite app_nil_r].
  rewrite lookup_snoc_length. cbn.
  destruct ((lists w ++ _) !! Gate.history g); cbn; [|by eexists _, _, [_]].
  destruct (RLP0.entries_of _); cbn; [|by eexists _, _, [_]].
  eexists _, _, [_; _]. by rewrite <-app_assoc.
Qed.

Lemma run_op_tracks o (s : RLP0.t Env * World Env) x :
  tracks s x →
  ∃ x', tracks (run_op o s) x' ∧
        step (RLP0._rupture_threshold s.1) x x' ∧
        same_frame s.1 (run_op o s).1.
Proof.
  destruct s as [k w]. intros Hx. destruct o; cbn; unfold after.
  - by apply update_state_tracks.
  - destruct (compute_tracks k w x Hx) as (x' & ? & ? & ? & _). by exists x'.
  - by apply acknowledge_tracks.
  - exists x. split; [|split; [apply step_nothing|done]].
    destruct Hx as (? & ? & ? & ? & ?). by destruct k as [l [] b thr].
  - exists x. split; [|split; [apply step_nothing|done]]. by destruct k.
  - exists x. split; [|split; [apply step_nothing|]];
      unfold RLP0.unsubscribe, on, SignalBus.unsubscribe, bind; cbn;
      destruct (SignalBus.contains _ _); by destruct k.
  - destruct (status_grows k w) as (r & w' & extra & -> & Hst & Hl).
    exists x. split; [|split; [apply step_nothing|done]].
    destruct Hx as (? & ? & ? & ? & ?). unfold tracks. cbn in *. rewrite Hl, Hst.
    split_and!; try done; by apply lookup_app_l_Some.
  - destruct (signal_history_grows k w) as (r & w' & extra & -> & Hst & Hl).
    exists x. split; [|split; [apply step_nothing|done]].
    destruct Hx as (? & ? & ? & ? & ?). unfold tracks. cbn in *. rewrite Hl, Hst.
    split_and!; try done; by apply lookup_app_l_Some.
  - exists x. by split; [|split; [apply step_nothing|]].
  - exists x. split; [|split; [apply step_nothing|]];
      destruct Hx as (? & ? & ? & ? & [st Hst]);
      unfold RLP0.rupture_risk, bind, world, read_state; cbn in *; by rewrite Hst.
  - exists x. by split; [|split; [apply step_nothing|]].
Qed.

Lemma run_ops_tracks ops (s : RLP0.t Env * World Env) x :
  tracks s x →
  ∃ x', tracks (run_ops ops s) x' ∧
        rtc (step (RLP0._rupture_threshold s.1)) x x' ∧
        same_frame s.1 (run_ops ops s).1.
Proof.
  revert s x. induction ops as [|o ops IH]; intros s x Hx.
  - exists x. by split.
  - destruct (run_op_tracks o s x Hx) as (x1 & H1 & Hs1 & Hf1).
    destruct (IH _ _ H1) as (x2 & H2 & Hs2 & Hf2).
    destruct Hf1 as (Ht & Hb & Hg). rewrite Ht in Hs2.
    exists x2. split; [done|]. split; [by eapply rtc_l|].
    destruct Hf2 as (Ht2 & Hb2 & Hg2).
    change (run_ops (o :: ops) s) with (run_ops ops (run_op o s)).
    unfold same_frame. split_and!; congruence.
Qed.

(** ** Histories *)

Lemma replay_app g evs evs' :
  replay g (evs ++ evs') = replay g evs ≫= λ g', replay g' evs'.
Proof.
  revert g. induction evs as [|[s|e|d] evs IH]; intros g; cbn; try done.
  destruct g; destruct (String.eqb _ _); cbn; by rewrite ?IH.
Qed.

Lemma step_consistent threshold x x' :
  step threshold x x' → gate_consistent x → gate_consistent x'.
Proof.
  unfold gate_consistent.
  destruct 1 as [x|g sigs evs t1 t2 risk Hg Hthr|g sigs evs t1 risk Hg Hthr
                 |g sigs evs t risk Hg]; cbn; try done; intros (Hr & Hc & Hre).
  - rewrite replay_app, Hr, Hg. cbn. split_and!; split; by eauto.
  - rewrite replay_app, Hr, Hg. cbn.
    split_and!; try done; split; try done; by intros [? ?].
Qed.

Lemma steps_consistent threshold x x' :
  rtc (step threshold) x x' → gate_consistent x → gate_consistent x'.
Proof. induction 1; eauto using step_consistent. Qed.

Lemma steps_extend threshold x x' :
  rtc (step threshold) x x' →
  ∃ sigs evs,
    signals_now x' = signals_now x ++ sigs ∧
    events_now x' = events_now x ++ evs ∧
    forallb is_signal sigs = true ∧
    forallb (closes_at threshold) evs = true ∧
    length (List.filter is_closed_event evs) ≤ length sigs.
Proof.
  induction 1 as [x|x y z Hxy _ (sigs & evs & Hs & He & Hfs & Hfe & Hn)].
  - exists [], []. by rewrite !app_nil_r.
  - rewrite Hs, He.
    destruct Hxy as [x|g sigs0 evs0 t1 t2 risk Hg Hthr|g sigs0 evs0 t1 risk Hg Hthr
                     |g sigs0 evs0 t risk Hg]; cbn.
    + by exists sigs, evs.
    + exists (ISignal (rupture_signal t1 risk threshold) :: sigs),
        (closed_event t2 (CloseReason risk threshold) risk :: evs).
      rewrite <-!app_assoc. cbn. rewrite Hthr, Hfe. split_and!; try done. lia.
    + exists (ISignal (rupture_signal t1 risk threshold) :: sigs), evs.
      rewrite <-!app_assoc. cbn. split_and!; try done. lia.
    + exists sigs, (released_event t risk :: evs).
      rewrite <-!app_assoc. cbn. rewrite Hfe. by split_and!.
Qed.

(** X1. Whatever a client calls, a kernel keeps its threshold and its two
    history lists, and the lists only grow: what they held stays in front.
    Each item added to the signal history is a signal, each item added to
    the gate history is an event, whose risk reaches the threshold when it
    is a "closed" one, and no more "closed" events are added than signals. *)
Theorem histories_only_grow k w st sigs evs (ops : list Op) :
  states w !! RLP0._state k = Some st →
  lists w !! SignalBus._history (RLP0._signal_bus k) = Some sigs →
  lists w !! Gate.history (RLP0._gate k) = Some evs →
  SignalBus._history (RLP0._signal_bus k) ≠ Gate.history (RLP0._gate k) →
  let s' := run_ops ops (k, w) in
  RLP0._rupture_threshold s'.1 = RLP0._rupture_threshold k ∧
  SignalBus._history (RLP0._signal_bus s'.1) = SignalBus._history (RLP0._signal_bus k) ∧
  Gate.history (RLP0._gate s'.1) = Gate.history (RLP0._gate k) ∧
  ∃ sigs' evs',
    lists s'.2 !! SignalBus._history (RLP0._signal_bus k) = Some (sigs ++ sigs') ∧
    lists s'.2 !! Gate.history (RLP0._gate k) = Some (evs ++ evs') ∧
    forallb is_signal sigs' = true ∧
    forallb (closes_at (RLP0._rupture_threshold k)) evs' = true ∧
    length (List.filter is_closed_event evs') ≤ length sigs'.
Proof.
  intros Hst Hs He Hne s'.
  destruct (run_ops_tracks ops (k, w)
              {| gate_now := RLP0._gate k; signals_now := sigs; events_now := evs |})
    as (x' & Hx' & Hsteps & Ht & Hb & Hg).
  { unfold tracks. cbn. split_and!; first [done|by eexists]. }
  fold s' in Hx', Ht, Hb, Hg. cbn in Hsteps, Ht, Hb, Hg.
  split_and!; try done.
  destruct (steps_extend _ _ _ Hsteps) as (sigs' & evs' & H1 & H2 & H3 & H4 & H5).
  destruct Hx' as (_ & Hs' & He' & _). cbn in H1, H2.
  exists sigs', evs'. rewrite <-Hb, <-Hg, Hs', He', H1, H2. done.
Qed.

(** The tracked view of the kernel that [RLP0(threshold)] builds. *)
Lemma new_tracks threshold w :
  ∃ k0 w1,
    RLP0.new threshold None w = (Returned k0, w1) ∧
    RLP0._rupture_threshold k0 = default RLP0.DEFAULT_RUPTURE_THRESHOLD threshold ∧
    tracks (k0, w1)
      {| gate_now := RLP0._gate k0; signals_now := []; events_now := [] |} ∧
    gate_consistent
      {| gate_now := RLP0._gate k0; signals_now := []; events_now := [] |}.
Proof.
  eexists _, _. split; [apply new_default|]. split; [done|]. split.
  - unfold tracks. cbn. split_and!.
    + done.
    + rewrite lookup_app_r by lia. by replace (S _ - _) with 1 by lia.
    + rewrite lookup_app_r by lia. by rewrite Nat.sub_diag.
    + lia.
    + rewrite lookup_snoc_length. by eexists.
  - unfold gate_consistent. cbn. split_and!; try done; split; try done; by intros [? ?].
Qed.

(** X2. In a kernel built without an initial state, after any sequence of
    public operations, the history of the gate replays to the state of the
    gate (it alternates "closed" and "released" events, starting with
    "closed", and the gate is CLOSED exactly when the last one is "closed"),
    and [closed_at] and [reason] are set exactly while the gate is CLOSED. *)
Theorem gate_history_replays (threshold : option float) (w0 : World Env)
    (ops : list Op) :
  ∃ k0 w1,
    RLP0.new threshold None w0 = (Returned k0, w1) ∧
    let s := run_ops ops (k0, w1) in
    ∃ evs,
      lists s.2 !! Gate.history (RLP0._gate s.1) = Some evs ∧
      replay OPEN evs = Some (Gate.state (RLP0._gate s.1)) ∧
      (Gate.state (RLP0._gate s.1) = CLOSED ↔ is_Some (Gate.closed_at (RLP0._gate s.1))) ∧
      (Gate.state (RLP0._gate s.1) = CLOSED ↔ is_Some (Gate.reason (RLP0._gate s.1))).
Proof.
  destruct (new_tracks threshold w0) as (k0 & w1 & Hnew & _ & Ht & Hc).
  exists k0, w1. split; [done|]. intros s.
  destruct (run_ops_tracks ops _ _ Ht) as (x' & Hx' & Hsteps & _).
  fold s in Hx'. pose proof (steps_consistent _ _ _ Hsteps Hc) as (Hr & Hca & Hre).
  destruct Hx' as (Hg & _ & He & _). rewrite Hg in He |- *.
  by exists (events_now x').
Qed.

(** X3. In a kernel built without an initial state, after any sequence of
    public operations, the threshold is the one given at construction (0.6
    by default), every "closed" event of the gate history carries a risk
    that reaches it, the signal history holds signals only, and there are at
    most as many "closed" events as signals. *)
Theorem closures_reach_threshold (threshold : option float) (w0 : World Env)
    (ops : list Op) :
  ∃ k0 w1,
    RLP0.new threshold None w0 = (Returned k0, w1) ∧
    let s := run_ops ops (k0, w1) in
    let limit := default RLP0.DEFAULT_RUPTURE_THRESHOLD threshold in
    ∃ sigs evs,
      lists s.2 !! SignalBus._history (RLP0._signal_bus s.1) = Some sigs ∧
      lists s.2 !! Gate.history (RLP0._gate s.1) = Some evs ∧
      RLP0._rupture_threshold s.1 = limit ∧
      forallb is_signal sigs = true ∧
      forallb (closes_at limit) evs = true ∧
      length (List.filter is_closed_event evs) ≤ length sigs.
Proof.
  destruct (new_tracks threshold w0) as (k0 & w1 & Hnew & Hthr & Ht & _).
  exists k0, w1. split; [done|]. intros s limit.
  destruct (run_ops_tracks ops _ _ Ht) as (x' & Hx' & Hsteps & Hf & _).
  fold s in Hx', Hf. cbn in Hsteps, Hf. rewrite Hthr in Hsteps, Hf. fold limit in Hsteps, Hf.
  destruct (steps_extend _ _ _ Hsteps) as (sigs' & evs' & H1 & H2 & H3 & H4 & H5).
  destruct Hx' as (_ & Hs' & He' & _). cbn in H1, H2.
  exists (signals_now x'), (events_now x'). split_and!; try done.
  - by rewrite H1.
  - by rewrite H2.
  - by rewrite H1, H2.
Qed.

(** ** The signal bus *)

Lemma deliver_undisturbed call fuel (before rest : list (SignalBus.Callback Env))
    (place : loc * nat) (s s' : SignalBus.t Env * World Env) :
  SignalBus._subscribers s.1 = before ++ rest →
  undisturbed call rest place s s' →
  length rest < fuel →
  LiveBus.deliver call fuel (length before) place s = Some (Returned tt, s').
Proof.
  revert fuel before s. induction rest as [|c rest IH]; intros fuel before s Hsubs Hrun Hfuel;
    (destruct fuel as [|fuel]; [cbn in Hfuel; lia|]); cbn in Hrun |- *.
  - rewrite Hsubs, app_nil_r, lookup_ge_None_2 by lia. by rewrite Hrun.
  - destruct Hrun as (s1 & Hcall & Hsame & Hrun).
    rewrite Hsubs, (list_lookup_middle before rest c (length before) eq_refl), Hcall.
    replace (S (length before)) with (length (before ++ [c]))
      by (rewrite length_app; cbn; lia).
    apply IH; [|done|cbn in Hfuel; lia].
    by rewrite Hsame, Hsubs, <-app_assoc.
Qed.

Lemma deliver_raise call fuel (done_ before : list (SignalBus.Callback Env)) c rest
    (place : loc * nat) (s s2 s3 : SignalBus.t Env * World Env) (err : exn) :
  SignalBus._subscribers s.1 = done_ ++ before ++ c :: rest →
  undisturbed call before place s s2 →
  call c place s2 = (Raised err, s3) →
  length before < fuel →
  LiveBus.deliver call fuel (length done_) place s = Some (Raised err, s3).
Proof.
  revert fuel done_ s.
  induction before as [|c0 before IH]; intros fuel done_ s Hsubs Hrun Hcall Hfuel;
    (destruct fuel as [|fuel]; [cbn in Hfuel; lia|]); cbn in Hrun |- *.
  - subst s2. rewrite Hsubs. cbn.
    by rewrite (list_lookup_middle done_ rest c (length done_) eq_refl), Hcall.
  - destruct Hrun as (s1 & Hc0 & Hsame & Hrun).
    rewrite Hsubs. cbn.
    rewrite (list_lookup_middle done_ (before ++ c :: rest) c0 (length done_) eq_refl), Hc0.
    replace (S (length done_)) with (length (done_ ++ [c0]))
      by (rewrite length_app; cbn; lia).
    apply IH; [|done|done|cbn in Hfuel; lia].
    rewrite Hsame, Hsubs. cbn. by rewrite <-app_assoc.
Qed.

Lemma deliver_passive fuel (before rest : list (SignalBus.Callback Env)) signal
    (place : loc * nat) b w :
  SignalBus._subscribers b = before ++ rest →
  lists w !! place.1 ≫= (λ xs, xs !! place.2) = Some (ISignal signal) →
  length rest < fuel →
  LiveBus.deliver LiveBus.passive fuel (length before) place (b, w) =
    Some ((notify rest signal (env w)).1, (b, set_env (notify rest signal (env w)).2 w)).
Proof.
  revert fuel before w. induction rest as [|c rest IH]; intros fuel before w Hsubs Hsig Hfuel;
    (destruct fuel as [|fuel]; [cbn in Hfuel; lia|]); cbn.
  - rewrite Hsubs, app_nil_r, lookup_ge_None_2 by lia. by destruct w.
  - rewrite Hsubs, (list_lookup_middle before rest c (length before) eq_refl).
    unfold LiveBus.passive. cbn. rewrite Hsig. unfold SignalBus.call.
    destruct (SignalBus.cb_run c signal (env w)) as [[[]|x] e']; cbn; [|done].
    specialize (IH fuel (before ++ [c]) (set_env e' w)).
    rewrite length_app, Nat.add_1_r in IH.
    apply IH; [by rewrite Hsubs, <-app_assoc|done|cbn in Hfuel; lia].
Qed.

Lemma passive_lists (c : SignalBus.Callback Env) (place : loc * nat)
    (s : SignalBus.t Env * World Env) :
  lists (LiveBus.passive c place s).2.2 = lists s.2.
Proof.
  unfold LiveBus.passive, SignalBus.call.
  destruct (lists s.2 !! place.1 ≫= _) as [[x|e|d]|]; try done.
  by destruct (SignalBus.cb_run c x (env s.2)).
Qed.

Lemma undisturbed_lists call (cs : list (SignalBus.Callback Env)) (place : loc * nat)
    (s s' : SignalBus.t Env * World Env) :
  (∀ c0 s0, lists (call c0 place s0).2.2 = lists s0.2) →
  undisturbed call cs place s s' → lists s'.2 = lists s.2.
Proof.
  intros Hlists. revert s. induction cs as [|c0 cs IH]; intros s Hrun; cbn in Hrun.
  - by subst.
  - destruct Hrun as (s1 & Hc0 & _ & Hrun). rewrite (IH _ Hrun).
    by rewrite <-(Hlists c0 s), Hc0.
Qed.

(** X4. [emit] appends the signal to the history and then walks the list of
    subscribers by position, reading the list at every step.  When each
    subscriber that is called returns and leaves that list as it is, [emit]
    returns after it called them one after the other in the order of their
    subscription, a callback that was added twice being called twice.  For
    subscribers that act on their environment only this is what
    [SignalBus.emit] computes.  When the list changes under the walk, the
    walk goes on in the changed list: after the first subscriber took itself
    off the list, the one that followed it is not called. *)
Theorem emit_delivers_in_subscription_order call signal b w sigs :
  lists w !! SignalBus._history b = Some sigs →
  let place := (SignalBus._history b, length sigs) in
  let w1 := {| now_at := now_at w; ticks := ticks w; states := states w;
               lists := <[SignalBus._history b := sigs ++ [ISignal signal]]> (lists w);
               env := env w |} in
  (∀ fuel s',
     undisturbed call (SignalBus._subscribers b) place (b, w1) s' →
     length (SignalBus._subscribers b) < fuel →
     LiveBus.emit call fuel signal (b, w) = Some (Returned tt, s')) ∧
  (∀ fuel,
     length (SignalBus._subscribers b) < fuel →
     LiveBus.emit LiveBus.passive fuel signal (b, w) =
       Some (SignalBus.emit signal (b, w))) ∧
  (∀ fuel c c' rest s1 s',
     SignalBus._subscribers b = c :: c' :: rest →
     call c place (b, w1) = (Returned tt, s1) →
     SignalBus._subscribers s1.1 = c' :: rest →
     undisturbed call rest place s1 s' →
     S (length rest) < fuel →
     LiveBus.emit call fuel signal (b, w) = Some (Returned tt, s')).
Proof.
  intros Hs place w1.
  assert (∀ call' fuel,
            LiveBus.emit call' fuel signal (b, w) =
              LiveBus.deliver call' fuel 0 place (b, w1)) as Hemit.
  { intros call' fuel. unfold LiveBus.emit, list_append, mutate_list, modify, set_lists.
    cbn. rewrite Hs. cbn. by rewrite (list_alter_Some _ _ _ _ Hs). }
  split_and!.
  - intros fuel s' Hrun Hfuel. rewrite Hemit.
    by apply (deliver_undisturbed call fuel [] (SignalBus._subscribers b)).
  - intros fuel Hfuel. rewrite Hemit, emit_spec.
    etrans.
    { apply (deliver_passive fuel [] (SignalBus._subscribers b) signal place b w1);
        [done| |done].
      cbn. rewrite list_lookup_insert_eq by by eapply lookup_lt_Some.
      cbn. apply lookup_snoc_length. }
    cbn. by rewrite (list_alter_Some _ _ _ _ Hs).
  - intros fuel c c' rest s1 s' Hsubs Hcall Hleft Hrun Hfuel. rewrite Hemit.
    destruct fuel as [|fuel]; [lia|]. cbn. rewrite Hsubs. cbn. rewrite Hcall.
    apply (deliver_undisturbed call fuel [c'] rest); [done|done|lia].
Qed.

(** X5. When a subscriber raises, [emit] raises the same exception and the
    walk ends there: the subscribers after it are not called, whatever they
    are, and the state is as the raising call left it.  The signal was
    appended before the first call, so it is in the history all the same
    when no subscriber changes a list. *)
Theorem emit_stops_at_first_raise call signal before c rest (h : loc) w sigs
    (s2 s3 : SignalBus.t Env * World Env) (err : exn) fuel :
  lists w !! h = Some sigs →
  let b := {| SignalBus._subscribers := before ++ c :: rest;
              SignalBus._history := h |} in
  let place := (h, length sigs) in
  let w1 := {| now_at := now_at w; ticks := ticks w; states := states w;
               lists := <[h := sigs ++ [ISignal signal]]> (lists w);
               env := env w |} in
  undisturbed call before place (b, w1) s2 →
  call c place s2 = (Raised err, s3) →
  length before < fuel →
  LiveBus.emit call fuel signal (b, w) = Some (Raised err, s3) ∧
  ((∀ c0 s, lists (call c0 place s).2.2 = lists s.2) →
   lists s3.2 !! h = Some (sigs ++ [ISignal signal])).
Proof.
  intros Hs b place w1 Hrun Hcall Hfuel. split.
  - unfold LiveBus.emit, list_append, mutate_list, modify, set_lists.
    cbn. rewrite Hs. cbn. rewrite (list_alter_Some _ _ _ _ Hs).
    by apply (deliver_raise call fuel [] before c rest place (b, w1) s2 s3 err).
  - intros Hlists.
    pose proof (undisturbed_lists _ _ _ _ _ Hlists Hrun) as H2.
    rewrite <-(Hlists c s2), Hcall in H2. cbn in H2. rewrite H2. cbn.
    apply list_lookup_insert_eq. by eapply lookup_lt_Some.
Qed.

Lemma remove_absent (c : SignalBus.Callback Env) cs :
  SignalBus.contains c cs = false → SignalBus.remove c cs = cs.
Proof.
  induction cs as [|c' cs IH]; cbn; [done|].
  destruct (SignalBus.same c c'); cbn; [done|]. intros H. by rewrite IH.
Qed.

Lemma remove_snoc (c : SignalBus.Callback Env) cs :
  SignalBus.remove c (cs ++ [c]) = SignalBus.remove c cs ++
    (if SignalBus.contains c cs then [c] else []).
Proof.
  induction cs as [|c' cs IH]; cbn.
  - unfold SignalBus.same. by rewrite Nat.eqb_refl.
  - destruct (SignalBus.same c c'); cbn; [done|]. by rewrite IH.
Qed.

Lemma contains_snoc (c : SignalBus.Callback Env) cs :
  SignalBus.contains c (cs ++ [c]) = true.
Proof.
  unfold SignalBus.contains. rewrite existsb_app. cbn.
  unfold SignalBus.same at 2. rewrite Nat.eqb_refl. by rewrite orb_true_r.
Qed.

Lemma remove_length (c : SignalBus.Callback Env) cs :
  SignalBus.contains c cs = true →
  S (length (SignalBus.remove c cs)) = length cs.
Proof.
  induction cs as [|c' cs IH]; cbn; [done|].
  destruct (SignalBus.same c c'); cbn; [done|]. intros H. by rewrite IH.
Qed.

Lemma remove_keeps_others (c : SignalBus.Callback Env) cs :
  List.filter (λ c', negb (SignalBus.same c c')) (SignalBus.remove c cs) =
  List.filter (λ c', negb (SignalBus.same c c')) cs.
Proof.
  induction cs as [|c' cs IH]; cbn; [done|].
  destruct (SignalBus.same c c') eqn:E; cbn; [done|]. by rewrite E, IH.
Qed.

(** X6. [unsubscribe] of a callback that is not subscribed changes nothing.
    Otherwise it takes out exactly one occurrence of the callback, the first
    one, and leaves the other subscribers in their order; a callback that
    was subscribed twice is still subscribed after one [unsubscribe].  In no
    case does it raise or touch the store. *)
Theorem unsubscribe_removes_first_occurrence (c : SignalBus.Callback Env) b w :
  ∃ b',
    SignalBus.unsubscribe c (b, w) = (Returned tt, (b', w)) ∧
    SignalBus._history b' = SignalBus._history b ∧
    SignalBus._subscribers b' = SignalBus.remove c (SignalBus._subscribers b) ∧
    List.filter (λ c', negb (SignalBus.same c c')) (SignalBus._subscribers b') =
      List.filter (λ c', negb (SignalBus.same c c')) (SignalBus._subscribers b) ∧
    (if SignalBus.contains c (SignalBus._subscribers b)
     then S (length (SignalBus._subscribers b')) = length (SignalBus._subscribers b)
     else b' = b) ∧
    (∀ cs1 cs2, SignalBus._subscribers b = cs1 ++ c :: cs2 →
                SignalBus.contains c cs1 = false →
                SignalBus._subscribers b' = cs1 ++ cs2).
Proof.
  unfold SignalBus.unsubscribe, bind. cbn.
  destruct (SignalBus.contains c (SignalBus._subscribers b)) eqn:Hc; cbn.
  - eexists. split; [done|]. cbn. split_and!; try done.
    + apply remove_keeps_others.
    + by apply remove_length.
    + intros cs1 cs2 -> Hn. clear Hc.
      induction cs1 as [|c1 cs1 IH]; cbn in *.
      * unfold SignalBus.same. by rewrite Nat.eqb_refl.
      * apply orb_false_iff in Hn as [-> Hn]. by rewrite IH.
  - exists b. split; [done|]. split_and!; try done.
    + by rewrite remove_absent.
    + intros cs1 cs2 Hb Hn. rewrite Hb in Hc.
      unfold SignalBus.contains in Hc. rewrite existsb_app in Hc. cbn in Hc.
      unfold SignalBus.same at 2 in Hc. rewrite Nat.eqb_refl in Hc.
      by rewrite orb_true_r in Hc.
Qed.

(** X7. [subscribe] followed by [unsubscribe] of the same callback gives the
    bus back as it was when the callback was not subscribed before; when it
    was, the pair moves the callback from its first place to the end of the
    subscribers, so that it is called last from then on. *)
Theorem subscribe_then_unsubscribe (c : SignalBus.Callback Env) b w :
  (SignalBus.subscribe c ;;; SignalBus.unsubscribe c) (b, w) =
    (Returned tt,
     ({| SignalBus._subscribers :=
           if SignalBus.contains c (SignalBus._subscribers b)
           then SignalBus.remove c (SignalBus._subscribers b) ++ [c]
           else SignalBus._subscribers b;
         SignalBus._history := SignalBus._history b |}, w)).
Proof.
  unfold bind, SignalBus.subscribe, SignalBus.unsubscribe, bind, set_self, self.
  cbn [fst snd SignalBus._subscribers SignalBus._history].
  rewrite contains_snoc. unfold ret.
  cbn [fst snd SignalBus._subscribers SignalBus._history].
  rewrite remove_snoc.
  destruct (SignalBus.contains c (SignalBus._subscribers b)) eqn:Hc; [done|].
  by rewrite remove_absent, app_nil_r.
Qed.

(** [compute_rupture_risk] keeps the state object of the kernel and writes
    into no other. *)
Lemma compute_tracks_state k w :
  RLP0._state (RLP0.compute_rupture_risk (k, w)).2.1 = RLP0._state k.
Proof.
  destruct k as [l g b thr].
  unfold RLP0.compute_rupture_risk, bind, world, read_state. cbn.
  destruct (states w !! l) as [st|]; cbn; [|done].
  destruct ((thr <=? RLP0.risk_of st)%float && Gate.is_open g); cbn; [|done].
  unfold RLP0._emit_rupture_detected, bind, world, on. cbn. rewrite emit_spec. cbn.
  destruct (notify _ _ _).1 as [[]|e]; cbn; [|done].
  unfold Gate.close, bind. cbn. by destruct (Gate.is_closed g).
Qed.

Lemma compute_rupture_risk_frame k w (l : loc) st :
  l ≠ RLP0._state k → states w !! l = Some st →
  RLP0._state (RLP0.compute_rupture_risk (k, w)).2.1 = RLP0._state k ∧
  states (RLP0.compute_rupture_risk (k, w)).2.2 !! l = Some st.
Proof.
  intros Hl Hst. split; [apply compute_tracks_state|].
  destruct k as [l0 g b thr]. cbn in Hl.
  unfold RLP0.compute_rupture_risk, bind, world, read_state. cbn.
  destruct (states w !! l0) as [st0|]; cbn; [|done].
  destruct ((thr <=? RLP0.risk_of st0)%float && Gate.is_open g); cbn.
  - unfold RLP0._emit_rupture_detected, bind, world, on. cbn. rewrite emit_spec. cbn.
    destruct (notify _ _ _).1 as [[]|e]; cbn.
    + unfold Gate.close, bind. cbn. destruct (Gate.is_closed g); cbn;
        by rewrite !list_lookup_alter_ne by done.
    + by rewrite !list_lookup_alter_ne by done.
  - by rewrite !list_lookup_alter_ne by done.
Qed.

(** ** How the operations of the kernel compose *)

(** X8. When a call of [compute_rupture_risk] returns, a second call right
    after it is silent: it returns the risk of the state that the kernel
    then holds, changes no list, runs no subscriber, and leaves the kernel as
    the first call left it. *)
Theorem second_computation_is_silent k w st risk :
  states w !! RLP0._state k = Some st →
  (RLP0.compute_rupture_risk (k, w)).1 = Returned risk →
  let s1 := (RLP0.compute_rupture_risk (k, w)).2 in
  risk = RLP0.risk_of st ∧
  ∃ st1,
    states s1.2 !! RLP0._state s1.1 = Some st1 ∧
    (RLP0.compute_rupture_risk s1).1 = Returned (RLP0.risk_of st1) ∧
    (RLP0.compute_rupture_risk s1).2.1 = s1.1 ∧
    lists (RLP0.compute_rupture_risk s1).2.2 = lists s1.2 ∧
    env (RLP0.compute_rupture_risk s1).2.2 = env s1.2.
Proof.
  intros Hst.
  assert (RLP0._state k < length (states w)) as Hlt by by eapply lookup_lt_Some.
  destruct ((RLP0._rupture_threshold k <=? RLP0.risk_of st)%float
            && Gate.is_open (RLP0._gate k)) eqn:Hc.
  - pose proof Hc as Hc'. apply andb_true_iff in Hc' as [Hthr Hopen].
    assert (Gate.state (RLP0._gate k) = OPEN) as Ho.
    { unfold Gate.is_open in Hopen. by destruct (Gate.state _). }
    rewrite (compute_rupture _ _ _ Hst Hthr Ho).
    destruct (notify _ _ _).1 as [[]|e]; cbn; [|done].
    intros [= <-]. split; [done|].
    exists (RelationalState.with_is_gated true
              (assessed st (RLP0.risk_of st) (now_at w (ticks w)))).
    split; [by rewrite list_lookup_insert_eq by done|].
    rewrite (compute_closed _ _ (RelationalState.with_is_gated true
               (assessed st (RLP0.risk_of st) (now_at w (ticks w)))));
      [done|cbn; by rewrite list_lookup_insert_eq by done|done].
  - rewrite (compute_quiet _ _ _ Hst Hc). cbn. intros [= <-]. split; [done|].
    exists (assessed st (RLP0.risk_of st) (now_at w (ticks w))).
    split; [by rewrite list_lookup_insert_eq by done|].
    rewrite (compute_quiet _ _ (assessed st (RLP0.risk_of st) (now_at w (ticks w))));
      [done|cbn; by rewrite list_lookup_insert_eq by done|done].
Qed.

(** X9. [acknowledge_repair] does not look at the risk, and nothing
    remembers that a repair was acknowledged: when the risk of a gated
    kernel still reaches the threshold, the gate that [acknowledge_repair]
    opens is closed again by the next [compute_rupture_risk], with a new
    signal and a new "closed" event after the "released" one (provided the
    subscribers return). *)
Theorem unverified_release_ruptures_again k w st sigs evs :
  states w !! RLP0._state k = Some st →
  lists w !! SignalBus._history (RLP0._signal_bus k) = Some sigs →
  lists w !! Gate.history (RLP0._gate k) = Some evs →
  SignalBus._history (RLP0._signal_bus k) ≠ Gate.history (RLP0._gate k) →
  Gate.state (RLP0._gate k) = CLOSED →
  (RLP0._rupture_threshold k <=? RLP0.risk_of st)%float = true →
  let risk := RLP0.risk_of st in
  let threshold := RLP0._rupture_threshold k in
  let signal := rupture_signal (now_at w (3 + ticks w)) risk threshold in
  (notify (SignalBus._subscribers (RLP0._signal_bus k)) signal (env w)).1 = Returned tt →
  let s1 := (RLP0.acknowledge_repair (k, w)).2 in
  let s2 := (RLP0.compute_rupture_risk s1).2 in
  (RLP0.acknowledge_repair (k, w)).1 = Returned true ∧
  Gate.state (RLP0._gate s1.1) = OPEN ∧
  (RLP0.compute_rupture_risk s1).1 = Returned risk ∧
  Gate.state (RLP0._gate s2.1) = CLOSED ∧
  lists s2.2 !! SignalBus._history (RLP0._signal_bus k) = Some (sigs ++ [ISignal signal]) ∧
  lists s2.2 !! Gate.history (RLP0._gate k) =
    Some (evs ++ [released_event (now_at w (1 + ticks w)) risk;
                  closed_event (now_at w (4 + ticks w)) (CloseReason risk threshold) risk]) ∧
  is_gated <$> states s2.2 !! RLP0._state k = Some true.
Proof.
  intros Hst Hs He Hne Hg Hthr risk threshold signal Hn s1 s2.
  assert (RLP0._state k < length (states w)) as Hlt by by eapply lookup_lt_Some.
  subst s2 s1. rewrite (acknowledge_closed _ _ _ Hst Hg). cbn.
  rewrite (compute_rupture _ _ (RelationalState.with_is_gated false
             (assessed st risk (now_at w (ticks w)))));
    [|cbn; by rewrite list_lookup_insert_eq by done|done|done].
  cbn. fold risk threshold.
  change (RLP0.risk_of (RelationalState.with_is_gated false
            (assessed st risk (now_at w (ticks w))))) with risk.
  change (rupture_signal (now_at w (S (S (S (ticks w))))) risk threshold) with signal.
  rewrite Hn. cbn.
  split_and!; try done.
  - rewrite list_lookup_alter_ne by done.
    rewrite list_lookup_alter_eq, list_lookup_alter_ne by done. by rewrite Hs.
  - rewrite list_lookup_alter_eq, list_lookup_alter_ne by done.
    rewrite list_lookup_alter_eq, He. cbn. by rewrite <-app_assoc.
  - rewrite list_insert_insert_eq, list_lookup_insert_eq by done. done.
Qed.

(** X10. After [acknowledge_repair], whatever it returned, the gate is
    open: a second [acknowledge_repair] returns false and changes neither
    the kernel nor the store. *)
Theorem second_acknowledgement_is_refused k w st :
  states w !! RLP0._state k = Some st →
  let s1 := (RLP0.acknowledge_repair (k, w)).2 in
  Gate.state (RLP0._gate s1.1) = OPEN ∧
  RLP0.acknowledge_repair s1 = (Returned false, s1).
Proof.
  intros Hst s1. subst s1. destruct (Gate.state (RLP0._gate k)) eqn:Hg.
  - rewrite (acknowledge_open _ _ Hg). split; [done|]. by apply acknowledge_open.
  - rewrite (acknowledge_closed _ _ _ Hst Hg). cbn. split; [done|].
    by apply acknowledge_open.
Qed.

(** X11. [update_state] with at least one value, all of them accepted, does
    not write into the state object the kernel had: it installs a new
    object, and the old one, which a client may still hold through the
    [state] property, keeps every field, its risk and its time stamp
    included.  With no value at all, a call that signals no rupture (the
    risk is below the threshold or the gate is closed) leaves the kernel
    with its object, into which the risk is written. *)
Theorem update_state_replaces_the_state_object k w st t i n c :
  states w !! RLP0._state k = Some st →
  let s' := (RLP0.update_state t i n c (k, w)).2 in
  (RLP0.updates_of t i n c ≠ ∅ →
   valid (merged st (RLP0.updates_of t i n c) (now_at w (ticks w))) = true →
   RLP0._state s'.1 ≠ RLP0._state k ∧
   states w !! RLP0._state s'.1 = None ∧
   states s'.2 !! RLP0._state k = Some st) ∧
  (RLP0.updates_of t i n c = ∅ →
   (RLP0._rupture_threshold k <=? RLP0.risk_of st)%float && Gate.is_open (RLP0._gate k)
     = false →
   RLP0._state s'.1 = RLP0._state k ∧
   RLP0._gate s'.1 = RLP0._gate k ∧
   rupture_risk <$> states s'.2 !! RLP0._state k = Some (RLP0.risk_of st)).
Proof.
  intros Hst s'. subst s'.
  assert (RLP0._state k < length (states w)) as Hlt by by eapply lookup_lt_Some.
  split.
  - intros Hne Hv. rewrite (update_state_valid _ _ _ _ _ _ _ Hst Hne Hv). cbn.
    match goal with |- context [RLP0.compute_rupture_risk (?k1, ?w1)] =>
      destruct (compute_rupture_risk_frame k1 w1 (RLP0._state k) st) as (Hk & Hs) end.
    { cbn. lia. }
    { cbn. by apply lookup_app_l_Some. }
    rewrite Hk. cbn. split_and!; [lia|by apply lookup_ge_None|done].
  - intros He Hq. apply updates_of_empty in He as (-> & -> & -> & ->).
    rewrite update_state_nothing, (compute_quiet _ _ _ Hst Hq). cbn.
    by rewrite list_lookup_insert_eq by done.
Qed.

(** ** What a kernel leaves alone *)

Lemma compute_others k w x :
  tracks (k, w) x →
  others_kept (RLP0._state k) (SignalBus._history (RLP0._signal_bus k))
    (Gate.history (RLP0._gate k)) w (RLP0.compute_rupture_risk (k, w)).2.2 ∧
  length (states (RLP0.compute_rupture_risk (k, w)).2.2) = length (states w).
Proof.
  intros (Hg & Hs & He & Hne & [st Hst]). cbn in *. unfold others_kept.
  destruct ((RLP0._rupture_threshold k <=? RLP0.risk_of st)%float
            && Gate.is_open (RLP0._gate k)) eqn:Hc.
  - apply andb_true_iff in Hc as [Hthr Hopen].
    assert (Gate.state (RLP0._gate k) = OPEN) as Ho.
    { unfold Gate.is_open in Hopen. by destruct (Gate.state _). }
    rewrite (compute_rupture _ _ _ Hst Hthr Ho).
    destruct (notify _ _ _).1 as [[]|e]; cbn; rewrite length_insert;
      (split; [split|done]); intros j y; intros.
    + by rewrite list_lookup_insert_ne by done.
    + by rewrite !list_lookup_alter_ne by done.
    + by rewrite list_lookup_insert_ne by done.
    + by rewrite !list_lookup_alter_ne by done.
  - rewrite (compute_quiet _ _ _ Hst Hc). cbn. rewrite length_insert.
    split; [split|done]; intros j y; intros; [|done].
    by rewrite list_lookup_insert_ne by done.
Qed.

Lemma run_op_others o k w x :
  tracks (k, w) x →
  others_kept (RLP0._state k) (SignalBus._history (RLP0._signal_bus k))
    (Gate.history (RLP0._gate k)) w (run_op o (k, w)).2 ∧
  length (states w) ≤ length (states (run_op o (k, w)).2) ∧
  (RLP0._state (run_op o (k, w)).1 = RLP0._state k ∨
   length (states w) ≤ RLP0._state (run_op o (k, w)).1).
Proof.
  intros Hx. pose proof Hx as (Hg & Hs & He & Hne & [st Hst]). cbn in Hg, Hs, He, Hne, Hst.
  assert (RLP0._state k < length (states w)) as Hlt by by eapply lookup_lt_Some.
  assert (others_kept (RLP0._state k) (SignalBus._history (RLP0._signal_bus k))
            (Gate.history (RLP0._gate k)) w w) as Hrefl by done.
  destruct o as [t i n c| | | | | | | | | |]; cbn; unfold after.
  - destruct (decide (RLP0.updates_of t i n c = ∅))
      as [Hem|Hnem].
    + apply updates_of_empty in Hem as (-> & -> & -> & ->).
      rewrite update_state_nothing. cbn.
      destruct (compute_others k w x Hx) as [Ho Hl].
      rewrite Hl, compute_tracks_state. split_and!; [done|lia|by left].
    + destruct (valid (merged st (RLP0.updates_of t i n c) 0%Z)) eqn:Hv.
      * rewrite (update_state_valid _ _ _ _ _ _ _ Hst Hnem Hv). cbn.
        match goal with |- context [RLP0.compute_rupture_risk (?k1, ?w1)] =>
          destruct (compute_others k1 w1 x) as [[Ho1 Ho2] Hl] end.
        { unfold tracks. cbn. split_and!; try done.
          rewrite lookup_snoc_length. by eexists. }
        cbn in Ho1, Ho2, Hl. rewrite Hl, compute_tracks_state. cbn.
        rewrite length_app. cbn. split_and!; [split| lia | right; lia].
        -- intros j y Hj Hy. apply Ho1.
           ++ apply lookup_lt_Some in Hy. lia.
           ++ by apply lookup_app_l_Some.
        -- intros j y Hj1 Hj2 Hy. by apply Ho2.
      * destruct (update_state_invalid _ _ _ _ _ _ _ Hst Hnem Hv) as (p & v & ->).
        cbn. split_and!; [done|lia|by left].
  - destruct (compute_others k w x Hx) as [Ho Hl].
    rewrite Hl, compute_tracks_state. split_and!; [done|lia|by left].
  - destruct (Gate.state (RLP0._gate k)) eqn:Hgs.
    + rewrite (acknowledge_open _ _ Hgs). cbn. split_and!; [done|lia|by left].
    + rewrite (acknowledge_closed _ _ _ Hst Hgs). cbn. rewrite length_insert.
      split_and!; [split|lia|by left]; intros j y; intros; cbn.
      * by rewrite list_lookup_insert_ne by done.
      * by rewrite list_lookup_alter_ne by done.
  - cbn. split_and!; [done|lia|by left].
  - cbn. split_and!; [done|lia|by left].
  - unfold RLP0.unsubscribe, on, SignalBus.unsubscribe, bind. cbn.
    destruct (SignalBus.contains _ _); cbn; split_and!; solve [done|lia|by left].
  - destruct (status_grows k w) as (r & w' & extra & -> & Hst' & Hl). cbn.
    rewrite Hst'. split_and!; [split|lia|by left]; intros j y; intros.
    + by rewrite Hst'.
    + rewrite Hl. by apply lookup_app_l_Some.
  - destruct (signal_history_grows k w) as (r & w' & extra & -> & Hst' & Hl). cbn.
    rewrite Hst'. split_and!; [split|lia|by left]; intros j y; intros.
    + by rewrite Hst'.
    + rewrite Hl. by apply lookup_app_l_Some.
  - cbn. split_and!; [done|lia|by left].
  - unfold RLP0.rupture_risk, bind, world, read_state. cbn. rewrite Hst. cbn.
    split_and!; [done|lia|by left].
  - cbn. split_and!; [done|lia|by left].
Qed.

(** X12. A kernel writes only into its own objects.  Through any sequence
    of public operations, every [RelationalState] instance that existed
    before, other than the one the kernel held, keeps all its fields, and
    every list that existed before, other than the two histories of the
    kernel, keeps its contents: the state and the lists of another kernel,
    or lists handed out earlier by [signal_history] or [status], are not
    affected. *)
Theorem kernel_writes_only_its_own_objects k w st sigs evs (ops : list Op) :
  states w !! RLP0._state k = Some st →
  lists w !! SignalBus._history (RLP0._signal_bus k) = Some sigs →
  lists w !! Gate.history (RLP0._gate k) = Some evs →
  SignalBus._history (RLP0._signal_bus k) ≠ Gate.history (RLP0._gate k) →
  let w' := (run_ops ops (k, w)).2 in
  (∀ (l : loc) other, l ≠ RLP0._state k →
                      states w !! l = Some other → states w' !! l = Some other) ∧
  (∀ (l : loc) xs, l ≠ SignalBus._history (RLP0._signal_bus k) →
                   l ≠ Gate.history (RLP0._gate k) →
                   lists w !! l = Some xs → lists w' !! l = Some xs).
Proof.
  intros Hst Hs He Hne.
  set (l0 := RLP0._state k). set (bh := SignalBus._history (RLP0._signal_bus k)).
  set (gh := Gate.history (RLP0._gate k)).
  enough (∀ ops (s : RLP0.t Env * World Env),
            (∃ x, tracks s x) →
            SignalBus._history (RLP0._signal_bus s.1) = bh →
            Gate.history (RLP0._gate s.1) = gh →
            others_kept l0 bh gh w s.2 →
            length (states w) ≤ length (states s.2) →
            (RLP0._state s.1 = l0 ∨ length (states w) ≤ RLP0._state s.1) →
            others_kept l0 bh gh w (run_ops ops s).2) as Hgen.
  { apply (Hgen ops (k, w)); try done; [|by left].
    exists {| gate_now := RLP0._gate k; signals_now := sigs; events_now := evs |}.
    unfold tracks. cbn. split_and!; first [done|by eexists]. }
  clear ops. intros ops. induction ops as [|o ops IH]; intros [k1 w1]; [done|].
  intros [x Hx] Hb Hg [Hk1 Hk2] Hlen Hl. cbn in Hb, Hg, Hk1, Hk2, Hlen, Hl.
  destruct (run_op_tracks o (k1, w1) x Hx) as (x' & Hx' & _ & _ & Hb' & Hg').
  destruct (run_op_others o k1 w1 x Hx) as ([Ho1 Ho2] & Hlen' & Hl').
  cbn in Hb', Hg'. rewrite Hb, Hg in Ho2.
  change (run_ops (o :: ops) (k1, w1)) with (run_ops ops (run_op o (k1, w1))).
  apply IH.
  - by exists x'.
  - by rewrite Hb'.
  - by rewrite Hg'.
  - split.
    + intros j y Hj Hy. apply Ho1; [|by apply Hk1].
      apply lookup_lt_Some in Hy. destruct Hl as [->|Hl]; [done|lia].
    + intros j y Hj1 Hj2 Hy. apply Ho2; [done|done|by apply Hk2].
  - lia.
  - destruct Hl' as [->|Hl']; [|right; lia]. destruct Hl as [->|Hl]; [by left|by right].
Qed.

(** ** Invariants of the state of a kernel *)

Lemma valid_same st st' : same_primitives st st' → valid st' = valid st.
Proof. unfold valid. by intros (-> & -> & -> & ->). Qed.

Lemma risk_same st st' : same_primitives st st' → RLP0.risk_of st' = RLP0.risk_of st.
Proof. unfold RLP0.risk_of. by intros (-> & -> & -> & ->). Qed.

Lemma compute_keeps_primitives k w st :
  states w !! RLP0._state k = Some st →
  ∃ st', states (RLP0.compute_rupture_risk (k, w)).2.2 !! RLP0._state k = Some st' ∧
         same_primitives st st' ∧
         rupture_risk st' = RLP0.risk_of st.
Proof.
  intros Hst.
  assert (RLP0._state k < length (states w)) as Hlt by by eapply lookup_lt_Some.
  destruct ((RLP0._rupture_threshold k <=? RLP0.risk_of st)%float
            && Gate.is_open (RLP0._gate k)) eqn:Hc.
  - apply andb_true_iff in Hc as [Hthr Hopen].
    assert (Gate.state (RLP0._gate k) = OPEN) as Hg.
    { unfold Gate.is_open in Hopen. by destruct (Gate.state _). }
    rewrite (compute_rupture _ _ _ Hst Hthr Hg).
    destruct (notify _ _ _).1 as [[]|e]; eexists; cbn;
      by rewrite list_lookup_insert_eq by done.
  - rewrite (compute_quiet _ _ _ Hst Hc). eexists. cbn.
    by rewrite list_lookup_insert_eq by done.
Qed.

Lemma compute_settles k w st :
  states w !! RLP0._state k = Some st →
  ∃ st', states (RLP0.compute_rupture_risk (k, w)).2.2
           !! RLP0._state (RLP0.compute_rupture_risk (k, w)).2.1 = Some st' ∧
         valid st' = valid st ∧
         rupture_risk st' = RLP0.risk_of st'.
Proof.
  intros Hst. destruct (compute_keeps_primitives k w st Hst) as (st' & H1 & H2 & H3).
  exists st'. rewrite compute_tracks_state. split_and!; [done|by apply valid_same|].
  by rewrite (risk_same _ _ H2).
Qed.

Lemma run_op_settled o k w st :
  states w !! RLP0._state k = Some st →
  ∃ st', states (run_op o (k, w)).2 !! RLP0._state (run_op o (k, w)).1 = Some st' ∧
         (valid st = true → valid st' = true) ∧
         (rupture_risk st = RLP0.risk_of st → rupture_risk st' = RLP0.risk_of st').
Proof.
  intros Hst.
  assert (RLP0._state k < length (states w)) as Hlt by by eapply lookup_lt_Some.
  destruct o as [t i n c| | | | | | | | | |]; cbn; unfold after.
  - destruct (decide (RLP0.updates_of t i n c = ∅)) as [Hem|Hnem].
    + apply updates_of_empty in Hem as (-> & -> & -> & ->).
      rewrite update_state_nothing. cbn.
      destruct (compute_settles k w st Hst) as (st' & H1 & H2 & H3).
      exists st'. split_and!; [done|by rewrite H2|done].
    + destruct (valid (merged st (RLP0.updates_of t i n c) 0%Z)) eqn:Hv.
      * rewrite (update_state_valid _ _ _ _ _ _ _ Hst Hnem Hv). cbn.
        match goal with |- context [RLP0.compute_rupture_risk (?k1, ?w1)] =>
          destruct (compute_settles k1 w1
                      (merged st (RLP0.updates_of t i n c) (now_at w (ticks w))))
            as (st' & H1 & H2 & H3) end.
        { cbn. apply lookup_snoc_length. }
        exists st'. split_and!; [done| |done]. intros _. by rewrite H2.
      * destruct (update_state_invalid _ _ _ _ _ _ _ Hst Hnem Hv) as (p & v & ->).
        by exists st.
  - destruct (compute_settles k w st Hst) as (st' & H1 & H2 & H3).
    exists st'. split_and!; [done|by rewrite H2|done].
  - destruct (Gate.state (RLP0._gate k)) eqn:Hgs.
    + rewrite (acknowledge_open _ _ Hgs). by exists st.
    + rewrite (acknowledge_closed _ _ _ Hst Hgs). cbn.
      rewrite list_lookup_insert_eq by done. eexists. by split.
  - by exists st.
  - by exists st.
  - unfold RLP0.unsubscribe, on, SignalBus.unsubscribe, bind. cbn.
    destruct (SignalBus.contains _ _); by exists st.
  - destruct (status_frame k w) as (r & w' & -> & Hw). exists st. cbn. by rewrite Hw.
  - destruct (signal_history_frame k w) as (r & w' & -> & Hw & _). exists st. cbn.
    by rewrite Hw.
  - by exists st.
  - unfold RLP0.rupture_risk, bind, world, read_state. cbn. rewrite Hst. by exists st.
  - by exists st.
Qed.

Lemma run_ops_settled ops k w st :
  states w !! RLP0._state k = Some st →
  valid st = true →
  ∃ st', states (run_ops ops (k, w)).2 !! RLP0._state (run_ops ops (k, w)).1 = Some st' ∧
         valid st' = true ∧
         (rupture_risk st = RLP0.risk_of st → rupture_risk st' = RLP0.risk_of st').
Proof.
  revert k w st.
  induction ops as [|o ops IH]; intros k w st Hst Hv; [by exists st|].
  destruct (run_op_settled o k w st Hst) as (st1 & H1 & H2 & H3).
  change (run_ops (o :: ops) (k, w)) with (run_ops ops (run_op o (k, w))).
  destruct (run_op o (k, w)) as [k1 w1]. cbn in H1.
  destruct (IH k1 w1 st1 H1 (H2 Hv)) as (st' & H4 & H5 & H6).
  exists st'. split_and!; [done|done|]. intros Hc. by apply H6, H3.
Qed.

(** X13. The primitives of the state of a kernel never leave the range, and
    its risk is never stale: when the state a kernel holds has its four
    primitives in range, then after any sequence of public operations the
    state it holds has them in range; and when in addition the stored risk is
    the mean deficiency of the primitives, it still is after the sequence,
    whichever calls raised. *)
Theorem kernel_state_stays_valid_and_current k w st (ops : list Op) :
  states w !! RLP0._state k = Some st →
  valid st = true →
  let s' := run_ops ops (k, w) in
  ∃ st', states s'.2 !! RLP0._state s'.1 = Some st' ∧
         valid st' = true ∧
         (rupture_risk st = RLP0.risk_of st → rupture_risk st' = RLP0.risk_of st').
Proof. intros Hst Hv. by apply run_ops_settled. Qed.

Lemma default_state_current stamp :
  rupture_risk (candidate None None None None None stamp None) =
    RLP0.risk_of (candidate None None None None None stamp None).
Proof. by vm_compute. Qed.

Lemma closes_at_is_event threshold (evs : list item) :
  forallb (closes_at threshold) evs = true → forallb is_event evs = true.
Proof.
  induction evs as [|[s|e|d] evs IH]; cbn; try done.
  intros [_ H]%andb_true_iff. by apply IH.
Qed.

(** X14. In a kernel built without an initial state, after any sequence of
    public operations, [status] returns: it raises nothing, leaves the kernel
    as it is, and what it reports hangs together.  The two gated flags of the
    report are equal, the reported state has the fields of the state of the
    kernel, its time stamp in ISO format, the risk in it is the mean
    deficiency of the primitives in it, the threshold is the one given at
    construction, the count of signals is the length of the signal history,
    the reported gate history is a new list with one entry per event of the
    gate, and there are at most as many "closed" events as counted signals. *)
Theorem status_always_returns (threshold : option float) (w0 : World Env)
    (ops : list Op) :
  ∃ k0 w1,
    RLP0.new threshold None w0 = (Returned k0, w1) ∧
    let s := run_ops ops (k0, w1) in
    ∃ d w' st sigs evs,
      RLP0.status s = (Returned d, (s.1, w')) ∧
      states s.2 !! RLP0._state s.1 = Some st ∧
      lists s.2 !! SignalBus._history (RLP0._signal_bus s.1) = Some sigs ∧
      lists s.2 !! Gate.history (RLP0._gate s.1) = Some evs ∧
      states w' = states s.2 ∧
      RLP0.status_state d =
        {| StateDict.trust := trust st;
           StateDict.intent := intent st;
           StateDict.narrative := narrative st;
           StateDict.commitments := commitments st;
           StateDict.rupture_risk := rupture_risk st;
           StateDict.is_gated := is_gated st;
           StateDict.last_updated := isoformat (last_updated st) |} ∧
      StateDict.rupture_risk (RLP0.status_state d) =
        (((1 - StateDict.trust (RLP0.status_state d)) +
          (1 - StateDict.intent (RLP0.status_state d)) +
          (1 - StateDict.narrative (RLP0.status_state d)) +
          (1 - StateDict.commitments (RLP0.status_state d))) / 4)%float ∧
      StateDict.is_gated (RLP0.status_state d) = RLP0.status_is_gated d ∧
      RLP0.status_is_gated d = Gate.is_closed (RLP0._gate s.1) ∧
      StateDict.rupture_risk (RLP0.status_state d) = RLP0.risk_of st ∧
      valid st = true ∧
      RLP0.status_rupture_threshold d =
        default RLP0.DEFAULT_RUPTURE_THRESHOLD threshold ∧
      RLP0.status_signal_count d = length sigs ∧
      lists s.2 !! RLP0.status_gate_history d = None ∧
      lists w' !! RLP0.status_gate_history d = Some (as_entry <$> evs) ∧
      length (List.filter is_closed_event evs) ≤ RLP0.status_signal_count d.
Proof.
  destruct (new_tracks threshold w0) as (k0 & w1 & Hnew & Hthr & Ht & _).
  exists k0, w1. split; [done|]. intros s.
  assert (∃ st0, states w1 !! RLP0._state k0 = Some st0 ∧ valid st0 = true ∧
                 rupture_risk st0 = RLP0.risk_of st0 ∧ is_gated st0 = false ∧
                 Gate.state (RLP0._gate k0) = OPEN)
    as (st0 & Hst0 & Hv0 & Hc0 & Hg0 & Ho0).
  { rewrite new_default in Hnew. injection Hnew as <- <-. cbn.
    rewrite lookup_snoc_length. eexists. split; [done|].
    split_and!; [apply default_state_valid|apply default_state_current|done|done]. }
  destruct (run_ops_tracks ops _ _ Ht) as (x' & Hx' & Hsteps & Hf & _).
  destruct (run_ops_settled ops k0 w1 st0 Hst0 Hv0) as (st & Hst & Hv & Hc).
  assert (flags_agree (k0, w1)) as Hag0.
  { exists st0. split; [done|]. cbn. unfold Gate.is_closed. by rewrite Hg0, Ho0. }
  pose proof (run_ops_agree ops _ Hag0) as (st2 & Hst2 & Hag).
  fold s in Hx', Hf, Hst, Hst2, Hag. cbn in Hsteps, Hf. rewrite Hthr in Hsteps, Hf.
  rewrite Hst in Hst2. injection Hst2 as <-.
  destruct (steps_extend _ _ _ Hsteps) as (sigs' & evs' & H1 & H2 & H3 & H4 & H5).
  destruct Hx' as (_ & Hs' & He' & _). cbn in H1, H2.
  destruct s as [k w]. cbn in *.
  pose proof (closes_at_is_event _ _ H4) as Hev. rewrite <-H2 in Hev.
  rewrite (status_spec _ _ _ _ _ Hst Hs' He' Hev).
  eexists _, _, st, (signals_now x'), (events_now x'). split; [done|]. cbn.
  split_and!; try done.
  - exact (Hc Hc0).
  - exact (Hc Hc0).
  - apply lookup_ge_None. lia.
  - rewrite lookup_app_r by lia. by replace (S _ - _) with 1 by lia.
  - rewrite H1, H2. lia.
Qed.

(** ** The validation of a state *)

(** X15. The validation of the constructor returns exactly when the four
    primitives are in range.  Otherwise it raises a ValueError, never
    anything else, which names the first primitive, in the order trust,
    intent, narrative, commitments, whose value is out of range, together with
    that value; the primitives before it are in range. *)
Theorem post_init_reports_first_offender (s : RelationalState) :
  (RelationalState.__post_init__ s = Returned tt ↔ valid s = true) ∧
  (∀ e, RelationalState.__post_init__ s = Raised e →
        ∃ earlier primitive later value,
          RelationalState.primitives = earlier ++ primitive :: later ∧
          RelationalState.getattr s primitive = Some value ∧
          RelationalState.in_range value = false ∧
          e = ValueError (RangeMessage primitive value) ∧
          ∀ q, q ∈ earlier →
               ∃ u, RelationalState.getattr s q = Some u ∧
                    RelationalState.in_range u = true).
Proof.
  unfold RelationalState.__post_init__, valid, RelationalState.primitives. cbn.
  destruct (RelationalState.in_range (trust s)) eqn:Ht; cbn.
  2:{ split; [done|]. intros e [= <-].
      exists [], "trust", ["intent"; "narrative"; "commitments"], (trust s).
      split_and!; try done. by intros q ?%elem_of_nil. }
  destruct (RelationalState.in_range (intent s)) eqn:Hi; cbn.
  2:{ split; [done|]. intros e [= <-].
      exists ["trust"], "intent", ["narrative"; "commitments"], (intent s).
      split_and!; try done. intros q Hq.
      repeat (apply elem_of_cons in Hq as [->|Hq]); [..|by apply elem_of_nil in Hq];
        by eexists. }
  destruct (RelationalState.in_range (narrative s)) eqn:Hn; cbn.
  2:{ split; [done|]. intros e [= <-].
      exists ["trust"; "intent"], "narrative", ["commitments"], (narrative s).
      split_and!; try done. intros q Hq.
      repeat (apply elem_of_cons in Hq as [->|Hq]); [..|by apply elem_of_nil in Hq];
        by eexists. }
  destruct (RelationalState.in_range (commitments s)) eqn:Hc; cbn.
  2:{ split; [done|]. intros e [= <-].
      exists ["trust"; "intent"; "narrative"], "commitments", [], (commitments s).
      split_and!; try done. intros q Hq.
      repeat (apply elem_of_cons in Hq as [->|Hq]); [..|by apply elem_of_nil in Hq];
        by eexists. }
  split; [done|]. by intros e.
Qed.

(** X16. [update] reads the keys trust, intent, narrative and commitments of
    its keyword arguments and no other: two calls whose arguments agree on
    these four keys do the same, so any other key is ignored without an
    error. *)
Theorem update_reads_only_the_primitives w (l : loc) (kwargs kwargs' : gmap string float) :
  (∀ p, p ∈ RelationalState.primitives → kwargs !! p = kwargs' !! p) →
  RelationalState.update l kwargs w = RelationalState.update l kwargs' w.
Proof.
  intros H. unfold RelationalState.update.
  rewrite (H "trust"), (H "intent"), (H "narrative"), (H "commitments");
    first done; unfold RelationalState.primitives; set_solver.
Qed.

(** ** Edges of the rupture test *)

Lemma step_never threshold x x' :
  (∀ risk, (threshold <=? risk)%float = false) →
  Gate.state (gate_now x) = OPEN →
  step threshold x x' → x' = x.
Proof.
  intros Hnever Ho.
  destruct 1 as [x|g sigs evs t1 t2 risk Hg Hthr|g sigs evs t1 risk Hg Hthr
                 |g sigs evs t risk Hg]; cbn in *; [done|..].
  - by rewrite Hnever in Hthr.
  - by rewrite Hnever in Hthr.
  - congruence.
Qed.

Lemma steps_never threshold x x' :
  (∀ risk, (threshold <=? risk)%float = false) →
  Gate.state (gate_now x) = OPEN →
  rtc (step threshold) x x' → x' = x.
Proof.
  intros Hnever Ho. induction 1 as [x|x y z Hxy _ IH]; [done|].
  apply (step_never _ _ _ Hnever Ho) in Hxy as ->. by apply IH.
Qed.

Lemma nan_leb (risk : float) : (nan <=? risk)%float = false.
Proof.
  rewrite leb_spec. replace (Prim2SF nan) with S754_nan by by vm_compute. done.
Qed.

(** X17. The constructor does not test the threshold.  With a threshold that
    no risk reaches, such as NaN, for which every comparison is false, a
    kernel built without an initial state never closes its gate: after any
    sequence of public operations the gate is OPEN and both histories are
    empty. *)
Theorem unreachable_threshold_never_closes (threshold : float) (w0 : World Env)
    (ops : list Op) :
  (∀ risk, (threshold <=? risk)%float = false) →
  ∃ k0 w1,
    RLP0.new (Some threshold) None w0 = (Returned k0, w1) ∧
    let s := run_ops ops (k0, w1) in
    RLP0._rupture_threshold s.1 = threshold ∧
    Gate.state (RLP0._gate s.1) = OPEN ∧
    lists s.2 !! SignalBus._history (RLP0._signal_bus s.1) = Some [] ∧
    lists s.2 !! Gate.history (RLP0._gate s.1) = Some [].
Proof.
  intros Hnever.
  destruct (new_tracks (Some threshold) w0) as (k0 & w1 & Hnew & Hthr & Ht & _).
  exists k0, w1. split; [done|]. intros s.
  assert (Gate.state (RLP0._gate k0) = OPEN) as Ho.
  { rewrite new_default in Hnew. by injection Hnew as <- <-. }
  destruct (run_ops_tracks ops _ _ Ht) as (x' & Hx' & Hsteps & Hf & _).
  fold s in Hx', Hf. cbn in Hsteps, Hf, Hthr. rewrite Hthr in Hsteps, Hf.
  apply steps_never in Hsteps as ->; [|done|done].
  destruct Hx' as (Hg & Hs' & He' & _). cbn in Hg, Hs', He'.
  split_and!; try done. by rewrite Hg.
Qed.

(** ** The operations that read *)

(** X19. [check_gate], [status], [signal_history] and the properties
    [state], [rupture_risk] and [is_gated] only read: after each of them the
    kernel is as before and so is every object of the store, the clock and
    the environment of the subscribers included.  [signal_history] and
    [status] create new lists, at most two, and nothing else. *)
Theorem observers_change_nothing (o : Op) k w :
  observes o = true →
  (run_op o (k, w)).1 = k ∧
  ∃ extra, (run_op o (k, w)).2 = set_lists (lists w ++ extra) w ∧ length extra ≤ 2.
Proof.
  assert (w = set_lists (lists w ++ []) w) as Hw.
  { destruct w. unfold set_lists. cbn. by rewrite app_nil_r. }
  destruct o; try done; intros _; cbn; unfold after.
  - split; [by destruct k as [l [] b thr]|]. exists []. cbn. split; [done|lia].
  - destruct k as [l g b thr].
    unfold RLP0.status, RLP0.is_gated, RelationalState.as_dict, on, SignalBus.history,
      bind, world, list_copy, bind, read_list, read_state.
    cbn. destruct (states w !! l); cbn; [|split; [done|exists []; split; [done|cbn; lia]]].
    destruct (lists w !! SignalBus._history b); cbn;
      [|split; [done|exists []; split; [done|cbn; lia]]].
    rewrite lookup_snoc_length. cbn.
    destruct ((lists w ++ _) !! Gate.history g); cbn;
      [|split; [done|eexists [_]; split; [done|cbn; lia]]].
    destruct (RLP0.entries_of _); cbn;
      [|split; [done|eexists [_]; split; [done|cbn; lia]]].
    split; [done|]. eexists [_; _]. unfold set_lists. cbn.
    rewrite <-app_assoc. split; [done|lia].
  - destruct k as [l g b thr].
    unfold RLP0.signal_history, on, SignalBus.history, bind, world, list_copy, bind,
      read_list.
    cbn. destruct (lists w !! SignalBus._history b); cbn.
    + split; [done|]. eexists [_]. split; [done|cbn; lia].
    + split; [done|]. exists []. split; [done|cbn; lia].
  - split; [done|]. exists []. split; [done|cbn; lia].
  - unfold RLP0.rupture_risk, bind, world, read_state. cbn.
    destruct (states w !! RLP0._state k); cbn;
      (split; [done|]; exists []; split; [done|cbn; lia]).
  - split; [done|]. exists []. split; [done|cbn; lia].
Qed.

(** ** The gate and the bus on their own *)

Lemma run_gate_op_inv (o : GateOp) (g : Gate.t) w evs :
  lists w !! Gate.history g = Some evs →
  gate_consistent {| gate_now := g; signals_now := []; events_now := evs |} →
  ∃ new,
    Gate.history (run_gate_op o (g, w)).1 = Gate.history g ∧
    lists (run_gate_op o (g, w)).2 !! Gate.history g = Some (evs ++ new) ∧
    ticks (run_gate_op o (g, w)).2 = length new + ticks w ∧
    length new ≤ 1 ∧
    states (run_gate_op o (g, w)).2 = states w ∧
    env (run_gate_op o (g, w)).2 = env w ∧
    now_at (run_gate_op o (g, w)).2 = now_at w ∧
    (∀ (l : loc) xs, l ≠ Gate.history g → lists w !! l = Some xs →
                     lists (run_gate_op o (g, w)).2 !! l = Some xs) ∧
    gate_consistent {| gate_now := (run_gate_op o (g, w)).1; signals_now := [];
                       events_now := evs ++ new |}.
Proof.
  intros Hh Hc. pose proof Hc as (Hr & Hca & Hre). cbn in Hr, Hca, Hre.
  assert (Gate.history g < length (lists w)) as Hlt by by eapply lookup_lt_Some.
  destruct o as [reason risk|risk|]; cbn; destruct (Gate.state g) eqn:Hs.
  - rewrite (close_open _ _ _ _ _ Hs Hh). cbn. eexists [_]. split_and!; try done; try (cbn; lia).
    + by rewrite list_lookup_insert_eq.
    + intros l xs Hl Hxs. by rewrite list_lookup_insert_ne.
    + unfold gate_consistent. cbn. rewrite replay_app, Hr. cbn.
      split_and!; split; by eauto.
  - rewrite (close_closed _ _ _ _ Hs). cbn. exists []. rewrite app_nil_r.
    split_and!; first [done|cbn; lia].
  - rewrite (release_open _ _ _ Hs). cbn. exists []. rewrite app_nil_r.
    split_and!; first [done|cbn; lia].
  - rewrite (release_closed _ _ _ _ Hs Hh). cbn. eexists [_]. split_and!; try done; try (cbn; lia).
    + by rewrite list_lookup_insert_eq.
    + intros l xs Hl Hxs. by rewrite list_lookup_insert_ne.
    + unfold gate_consistent. cbn. rewrite replay_app, Hr. cbn.
      split_and!; try done; split; try done; by intros [? ?].
  - exists []. rewrite app_nil_r. split_and!; first [done|cbn; lia].
  - exists []. rewrite app_nil_r. split_and!; first [done|cbn; lia].
Qed.

Lemma run_gate_ops_inv (ops : list GateOp) (g : Gate.t) w evs :
  lists w !! Gate.history g = Some evs →
  gate_consistent {| gate_now := g; signals_now := []; events_now := evs |} →
  ∃ new,
    Gate.history (run_gate_ops ops (g, w)).1 = Gate.history g ∧
    lists (run_gate_ops ops (g, w)).2 !! Gate.history g = Some (evs ++ new) ∧
    ticks (run_gate_ops ops (g, w)).2 = length new + ticks w ∧
    length new ≤ length ops ∧
    states (run_gate_ops ops (g, w)).2 = states w ∧
    env (run_gate_ops ops (g, w)).2 = env w ∧
    now_at (run_gate_ops ops (g, w)).2 = now_at w ∧
    (∀ (l : loc) xs, l ≠ Gate.history g → lists w !! l = Some xs →
                     lists (run_gate_ops ops (g, w)).2 !! l = Some xs) ∧
    gate_consistent {| gate_now := (run_gate_ops ops (g, w)).1; signals_now := [];
                       events_now := evs ++ new |}.
Proof.
  revert g w evs. induction ops as [|o ops IH]; intros g w evs Hh Hc.
  - exists []. rewrite app_nil_r. split_and!; first [done|cbn; lia].
  - destruct (run_gate_op_inv o g w evs Hh Hc)
      as (n1 & Hh1 & Hl1 & Ht1 & Hn1 & Hs1 & He1 & Hc1 & Hk1 & Hg1).
    change (run_gate_ops (o :: ops) (g, w))
      with (run_gate_ops ops (run_gate_op o (g, w))).
    destruct (run_gate_op o (g, w)) as [g1 w1]. cbn in Hh1, Hl1, Ht1, Hs1, He1, Hc1, Hk1, Hg1.
    rewrite <-Hh1 in Hl1.
    destruct (IH g1 w1 (evs ++ n1) Hl1 Hg1)
      as (n2 & Hh2 & Hl2 & Ht2 & Hn2 & Hs2 & He2 & Hc2 & Hk2 & Hg2).
    exists (n1 ++ n2). rewrite app_assoc, length_app. cbn.
    rewrite Hh1 in Hh2, Hl2, Hk2.
    split_and!; try congruence; try lia.
    intros l xs Hl Hxs. apply Hk2; [done|]. by apply Hk1.
Qed.

(** X20. A [Gate] used on its own, from its creation through any sequence
    of [close], [release] and [check] with any reasons and risks: its
    history replays to its state, [closed_at] and [reason] are set exactly
    while it is CLOSED, at most one event is recorded per call, the clock is
    read exactly once per recorded event, and no state, no other list and
    nothing of the subscribers is touched. *)
Theorem gate_alone_is_consistent (w0 : World Env) (ops : list GateOp) :
  ∃ g0 w1,
    Gate.new w0 = (Returned g0, w1) ∧
    let s := run_gate_ops ops (g0, w1) in
    ∃ evs,
      lists s.2 !! Gate.history s.1 = Some evs ∧
      lists w0 !! Gate.history s.1 = None ∧
      replay OPEN evs = Some (Gate.state s.1) ∧
      (Gate.state s.1 = CLOSED ↔ is_Some (Gate.closed_at s.1)) ∧
      (Gate.state s.1 = CLOSED ↔ is_Some (Gate.reason s.1)) ∧
      length evs ≤ length ops ∧
      ticks s.2 = length evs + ticks w0 ∧
      states s.2 = states w0 ∧
      env s.2 = env w0 ∧
      (∀ (l : loc) xs, lists w0 !! l = Some xs → lists s.2 !! l = Some xs).
Proof.
  eexists _, _. split; [done|]. cbn zeta.
  match goal with |- context [run_gate_ops ops (?g, ?w)] =>
    destruct (run_gate_ops_inv ops g w [])
      as (new & Hh & Hl & Ht & Hn & Hs & He & _ & Hk & Hr & Hca & Hre) end.
  { cbn. apply lookup_snoc_length. }
  { unfold gate_consistent. cbn. split_and!; try done; split; try done; by intros [? ?]. }
  cbn in *. exists new. rewrite Hh. split_and!; try done.
  - by apply lookup_ge_None.
  - intros l xs Hxs. apply Hk.
    + apply lookup_lt_Some in Hxs. lia.
    + by apply lookup_app_l_Some.
Qed.

Lemma emitted_cons (o : @BusOp Env) (ops : list (@BusOp Env)) :
  emitted (o :: ops) = emitted [o] ++ emitted ops.
Proof. by destruct o. Qed.

Lemma run_bus_op_inv (o : BusOp) b w sigs :
  lists w !! SignalBus._history b = Some sigs →
  SignalBus._history (run_bus_op o (b, w)).1 = SignalBus._history b ∧
  lists (run_bus_op o (b, w)).2 !! SignalBus._history b = Some (sigs ++ emitted [o]) ∧
  ticks (run_bus_op o (b, w)).2 = ticks w ∧
  states (run_bus_op o (b, w)).2 = states w ∧
  (∀ (l : loc) xs, l ≠ SignalBus._history b → lists w !! l = Some xs →
                   lists (run_bus_op o (b, w)).2 !! l = Some xs).
Proof.
  intros Hs.
  destruct o as [c|c|signal|]; cbn.
  - rewrite app_nil_r. by split_and!.
  - unfold SignalBus.unsubscribe, bind. cbn.
    destruct (SignalBus.contains _ _); cbn; rewrite app_nil_r; by split_and!.
  - rewrite emit_spec. cbn. split_and!; try done.
    + by rewrite list_lookup_alter_eq, Hs.
    + intros l xs Hl Hxs. by rewrite list_lookup_alter_ne.
  - unfold SignalBus.history, bind, world, list_copy, bind, read_list. cbn.
    rewrite Hs. cbn. rewrite app_nil_r. split_and!; try done.
    + by apply lookup_app_l_Some.
    + intros l xs Hl Hxs. by apply lookup_app_l_Some.
Qed.

Lemma run_bus_ops_inv (ops : list BusOp) b w sigs :
  lists w !! SignalBus._history b = Some sigs →
  SignalBus._history (run_bus_ops ops (b, w)).1 = SignalBus._history b ∧
  lists (run_bus_ops ops (b, w)).2 !! SignalBus._history b = Some (sigs ++ emitted ops) ∧
  ticks (run_bus_ops ops (b, w)).2 = ticks w ∧
  states (run_bus_ops ops (b, w)).2 = states w ∧
  (∀ (l : loc) xs, l ≠ SignalBus._history b → lists w !! l = Some xs →
                   lists (run_bus_ops ops (b, w)).2 !! l = Some xs).
Proof.
  revert b w sigs. induction ops as [|o ops IH]; intros b w sigs Hs.
  - cbn. rewrite app_nil_r. by split_and!.
  - destruct (run_bus_op_inv o b w sigs Hs) as (Hh1 & Hl1 & Ht1 & Hs1 & Hk1).
    change (run_bus_ops (o :: ops) (b, w)) with (run_bus_ops ops (run_bus_op o (b, w))).
    destruct (run_bus_op o (b, w)) as [b1 w1]. cbn in Hh1, Hl1, Ht1, Hs1, Hk1.
    rewrite <-Hh1 in Hl1.
    destruct (IH b1 w1 _ Hl1) as (Hh2 & Hl2 & Ht2 & Hs2 & Hk2).
    rewrite Hh1 in Hh2, Hl2, Hk2. rewrite emitted_cons, app_assoc.
    split_and!; try congruence; [exact Hl2|].
    intros l xs Hl Hxs. apply Hk2; [done|]. by apply Hk1.
Qed.

(** X21. A [SignalBus] used on its own, from its creation through any
    sequence of [subscribe], [unsubscribe], [emit] and [history]: its history
    holds exactly the signals that were emitted, in the order of the calls,
    also those during whose delivery a subscriber raised; the bus never
    reads the clock, touches no state and no list that existed before. *)
Theorem bus_history_is_what_was_emitted (w0 : World Env) (ops : list BusOp) :
  ∃ b0 w1,
    SignalBus.new w0 = (Returned b0, w1) ∧
    let s := run_bus_ops ops (b0, w1) in
    lists s.2 !! SignalBus._history s.1 = Some (emitted ops) ∧
    lists w0 !! SignalBus._history s.1 = None ∧
    ticks s.2 = ticks w0 ∧
    states s.2 = states w0 ∧
    (∀ (l : loc) xs, lists w0 !! l = Some xs → lists s.2 !! l = Some xs).
Proof.
  eexists _, _. split; [done|]. cbn zeta.
  match goal with |- context [run_bus_ops ops (?b, ?w)] =>
    destruct (run_bus_ops_inv ops b w []) as (Hh & Hl & Ht & Hs & Hk) end.
  { cbn. apply lookup_snoc_length. }
  cbn in *. rewrite Hh. split_and!; try done.
  - by apply lookup_ge_None.
  - intros l xs Hxs. apply Hk.
    + apply lookup_lt_Some in Hxs. lia.
    + by apply lookup_app_l_Some.
Qed.

End FurtherProperties.

(** * The further properties on concrete clients *)

Lemma histories_only_grow_witness :
  ∃ sigs' evs',
    lists (run_ops [ComputeRuptureRisk; AcknowledgeRepair; ComputeRuptureRisk]
             (distressed_kernel collector, distressed_world)).2 !! 1 = Some sigs' ∧
    lists (run_ops [ComputeRuptureRisk; AcknowledgeRepair; ComputeRuptureRisk]
             (distressed_kernel collector, distressed_world)).2 !! 0 = Some evs' ∧
    forallb (closes_at 0.5%float) evs' = true ∧
    length (List.filter is_closed_event evs') ≤ length sigs'.
Proof.
  pose proof (histories_only_grow (distressed_kernel collector) distressed_world
                distressed_state [] []
                [ComputeRuptureRisk; AcknowledgeRepair; ComputeRuptureRisk]) as H.
  destruct H as (_ & _ & _ & sigs' & evs' & H1 & H2 & _ & H3 & H5);
    [reflexivity|reflexivity|reflexivity|cbn; lia|].
  exists sigs', evs'. split_and!; [exact H1|exact H2|exact H3|exact H5].
Defined.

Lemma emit_delivers_in_subscription_order_witness :
  (∃ s',
     LiveBus.emit LiveBus.passive 4 (rupture_signal 2%Z 0.8%float 0.5%float)
       ({| SignalBus._subscribers := [collector; resetting; collector];
           SignalBus._history := 1 |}, distressed_world) = Some (Returned tt, s') ∧
     env s'.2 = [rupture_signal 2%Z 0.8%float 0.5%float]) ∧
  (∃ s',
     LiveBus.emit once 3 (rupture_signal 2%Z 0.8%float 0.5%float)
       ({| SignalBus._subscribers := [one_shot; collector];
           SignalBus._history := 1 |}, distressed_world) = Some (Returned tt, s') ∧
     SignalBus._subscribers s'.1 = [collector] ∧
     env s'.2 = [rupture_signal 2%Z 0.8%float 0.5%float]).
Proof.
  split.
  - destruct (emit_delivers_in_subscription_order LiveBus.passive
                (rupture_signal 2%Z 0.8%float 0.5%float)
                {| SignalBus._subscribers := [collector; resetting; collector];
                   SignalBus._history := 1 |} distressed_world [] eq_refl)
      as (Hall & _ & _).
    eexists. split.
    + apply Hall; [|cbn; lia]. cbn.
      eexists. split; [vm_compute; reflexivity|]. split; [reflexivity|].
      eexists. split; [vm_compute; reflexivity|]. split; [reflexivity|].
      eexists. split; [vm_compute; reflexivity|]. split; [reflexivity|].
      reflexivity.
    + reflexivity.
  - destruct (emit_delivers_in_subscription_order once
                (rupture_signal 2%Z 0.8%float 0.5%float)
                {| SignalBus._subscribers := [one_shot; collector];
                   SignalBus._history := 1 |} distressed_world [] eq_refl)
      as (_ & _ & Hskip).
    eexists. split.
    + eapply (Hskip 3 one_shot collector []);
        [reflexivity|vm_compute; reflexivity|reflexivity|reflexivity|cbn; lia].
    + split; reflexivity.
Defined.

Lemma emit_stops_at_first_raise_witness :
  ∃ s3,
    LiveBus.emit LiveBus.passive 2 (rupture_signal 2%Z 0.8%float 0.5%float)
      ({| SignalBus._subscribers := [collector; faulty; collector];
          SignalBus._history := 1 |}, distressed_world) =
      Some (Raised (Exception "RuntimeError"), s3) ∧
    env s3.2 = [rupture_signal 2%Z 0.8%float 0.5%float] ∧
    lists s3.2 !! 1 = Some [ISignal (rupture_signal 2%Z 0.8%float 0.5%float)].
Proof.
  pose (s2 := ({| SignalBus._subscribers := [collector; faulty; collector];
                  SignalBus._history := 1 |},
               {| now_at := Z.of_nat; ticks := 1; states := [distressed_state];
                  lists := [[]; [ISignal (rupture_signal 2%Z 0.8%float 0.5%float)]];
                  env := [rupture_signal 2%Z 0.8%float 0.5%float] |})
              : SignalBus.t Env0 * World Env0).
  exists s2.
  destruct (emit_stops_at_first_raise LiveBus.passive
              (rupture_signal 2%Z 0.8%float 0.5%float)
              [collector] faulty [collector] 1 distressed_world [] s2 s2
              (Exception "RuntimeError") 2) as [H1 H2].
  - reflexivity.
  - cbn. exists s2. split; [by vm_compute|]. split; reflexivity.
  - by vm_compute.
  - cbn. lia.
  - split_and!; [exact H1|reflexivity|].
    apply H2. intros c0 s0. apply passive_lists.
Defined.

Lemma second_computation_is_silent_witness :
  (RLP0.compute_rupture_risk (gated_kernel, gated_world)).1 = Returned 0.8%float ∧
  lists (RLP0.compute_rupture_risk (gated_kernel, gated_world)).2.2 = lists gated_world.
Proof.
  pose proof (second_computation_is_silent (distressed_kernel collector) distressed_world
                distressed_state 0.8%float eq_refl) as H.
  cbn zeta in H. rewrite gated_reached in H.
  destruct (H eq_refl) as (_ & st1 & Hst1 & H1 & _ & H2 & _).
  injection Hst1 as <-. split; [exact H1|exact H2].
Defined.

Lemma unverified_release_ruptures_again_witness :
  (RLP0.acknowledge_repair (gated_kernel, gated_world)).1 = Returned true ∧
  Gate.state (RLP0._gate (RLP0.compute_rupture_risk
                            (RLP0.acknowledge_repair (gated_kernel, gated_world)).2).2.1)
    = CLOSED.
Proof.
  pose proof (unverified_release_ruptures_again gated_kernel gated_world gated_state
                [ISignal (rupture_signal 2%Z 0.8%float 0.5%float)]
                [closed_event 3%Z (CloseReason 0.8%float 0.5%float) 0.8%float]) as H.
  destruct H as (H1 & _ & _ & H2 & _);
    [reflexivity|reflexivity|reflexivity|cbn; lia|reflexivity|by vm_compute
    |by vm_compute|].
  split; [exact H1|exact H2].
Defined.

Lemma second_acknowledgement_is_refused_witness :
  RLP0.acknowledge_repair (RLP0.acknowledge_repair (gated_kernel, gated_world)).2 =
    (Returned false, (RLP0.acknowledge_repair (gated_kernel, gated_world)).2).
Proof.
  destruct (second_acknowledgement_is_refused gated_kernel gated_world gated_state)
    as [_ H]; [reflexivity|exact H].
Defined.

Lemma update_state_replaces_the_state_object_witness :
  states distressed_world
    !! RLP0._state (RLP0.update_state (Some 0.9%float) None None None
                      (distressed_kernel collector, distressed_world)).2.1 = None ∧
  states (RLP0.update_state (Some 0.9%float) None None None
            (distressed_kernel collector, distressed_world)).2.2 !! 0 =
    Some distressed_state.
Proof.
  destruct (update_state_replaces_the_state_object (distressed_kernel collector)
              distressed_world distressed_state (Some 0.9%float) None None None)
    as [H _]; [reflexivity|].
  destruct H as (_ & H1 & H2).
  - intros E. apply updates_of_empty in E as [E _]. discriminate E.
  - by vm_compute.
  - split; [exact H1|exact H2].
Defined.

Lemma kernel_writes_only_its_own_objects_witness :
  states (run_ops [AcknowledgeRepair; UpdateState (Some 0.9%float) None None None; Status]
            (gated_kernel, crowded_world)).2 !! 1 = Some distressed_state ∧
  lists (run_ops [AcknowledgeRepair; UpdateState (Some 0.9%float) None None None; Status]
           (gated_kernel, crowded_world)).2 !! 2 =
    Some [ISignal (rupture_signal 2%Z 0.8%float 0.5%float)].
Proof.
  destruct (kernel_writes_only_its_own_objects gated_kernel crowded_world gated_state
              [ISignal (rupture_signal 2%Z 0.8%float 0.5%float)]
              [closed_event 3%Z (CloseReason 0.8%float 0.5%float) 0.8%float]
              [AcknowledgeRepair; UpdateState (Some 0.9%float) None None None; Status])
    as [H1 H2]; [reflexivity|reflexivity|reflexivity|cbn; lia|].
  split.
  - apply H1; [cbn; lia|reflexivity].
  - apply H2; [cbn; lia|cbn; lia|reflexivity].
Defined.

Lemma kernel_state_stays_valid_and_current_witness :
  ∃ st',
    states (run_ops [AcknowledgeRepair; UpdateState (Some 0.9%float) None None None]
              (gated_kernel, gated_world)).2
      !! RLP0._state
           (run_ops [AcknowledgeRepair; UpdateState (Some 0.9%float) None None None]
              (gated_kernel, gated_world)).1 = Some st' ∧
    valid st' = true ∧ rupture_risk st' = RLP0.risk_of st'.
Proof.
  destruct (kernel_state_stays_valid_and_current gated_kernel gated_world gated_state
              [AcknowledgeRepair; UpdateState (Some 0.9%float) None None None])
    as (st' & H1 & H2 & H3); [reflexivity|by vm_compute|].
  exists st'. split_and!; [exact H1|exact H2|apply H3; by vm_compute].
Defined.

Lemma update_reads_only_the_primitives_witness :
  RelationalState.update 0 (<["mood" := 0.9%float]> {["trust" := 0.5%float]})
    distressed_world =
  RelationalState.update 0 {["trust" := 0.5%float]} distressed_world.
Proof.
  apply update_reads_only_the_primitives. intros p Hp.
  unfold RelationalState.primitives in Hp.
  repeat (apply elem_of_cons in Hp as [->|Hp]); [by vm_compute..|].
  by apply elem_of_nil in Hp.
Defined.

Lemma unreachable_threshold_never_closes_witness :
  ∃ k0 w1,
    RLP0.new (Some nan) None world0 = (Returned k0, w1) ∧
    Gate.state
      (RLP0._gate
         (run_ops [UpdateState (Some 0%float) (Some 0%float) (Some 0%float) (Some 0%float);
                   ComputeRuptureRisk] (k0, w1)).1) = OPEN.
Proof.
  destruct (unreachable_threshold_never_closes nan world0
              [UpdateState (Some 0%float) (Some 0%float) (Some 0%float) (Some 0%float);
               ComputeRuptureRisk] nan_leb)
    as (k0 & w1 & Hnew & H).
  destruct H as (_ & Ho & _). exists k0, w1. split; [exact Hnew|exact Ho].
Defined.

Lemma observers_change_nothing_witness :
  (run_op Status (gated_kernel, gated_world)).1 = gated_kernel ∧
  states (run_op Status (gated_kernel, gated_world)).2 = states gated_world ∧
  ticks (run_op Status (gated_kernel, gated_world)).2 = ticks gated_world.
Proof.
  destruct (observers_change_nothing Status gated_kernel gated_world eq_refl)
    as [H1 (extra & H2 & _)].
  split_and!; [exact H1|by rewrite H2|by rewrite H2].
Defined.
